(** * Arabic shaping and visual reordering ([ar] of reports.py)

    A shallow embedding of the shaping engine of [src/reports.py]
    (form table, ligature table, [_is_arabic], [_connects_left],
    [_shape_run] and [ar]) together with the properties the specification
    states about it.

    Strings are lists of Unicode code points ([Z]); a one-character Python
    string is its code point.  Code that can raise in Python ([chars[i]],
    [_AR_FORMS[ch]]) is written in an error monad, so that the absence of
    exceptions is a statement about the model and not an assumption. *)

From Stdlib Require Import ZArith List Bool Lia.
Import ListNotations.
Open Scope Z_scope.

(* ================================================================= *)
(** ** The Python run time the engine relies on *)

Module Py.

(** Exceptions of the operations used; [OutOfFuel] is not a Python
    exception: it marks a [while] loop cut off by the model's fuel. *)
Inductive exn : Type := IndexError | KeyError | OutOfFuel.

Inductive result (A : Type) : Type :=
| Ok (a : A)
| Raise (e : exn).
Arguments Ok {A} a.
Arguments Raise {A} e.

Definition bind {A B} (m : result A) (k : A -> result B) : result B :=
  match m with
  | Ok a => k a
  | Raise e => Raise e
  end.

(** [len(l)] *)
Definition len {A} (l : list A) : Z := Z.of_nat (length l).

(** [l[k]]: a negative index counts from the end, an index out of range
    raises [IndexError]. *)
Definition getitem {A} (l : list A) (k : Z) : result A :=
  let k' := if k <? 0 then k + len l else k in
  if k' <? 0 then Raise IndexError
  else match nth_error l (Z.to_nat k') with
       | Some x => Ok x
       | None => Raise IndexError
       end.

(** A [dict] with one-character keys, as the ordered list of its items. *)
Definition dict (V : Type) : Type := list (Z * V).

Fixpoint lookup {V} (d : dict V) (k : Z) : option V :=
  match d with
  | [] => None
  | (k', v) :: d' => if k =? k' then Some v else lookup d' k
  end.

(** [k in d] *)
Definition contains {V} (d : dict V) (k : Z) : bool :=
  match lookup d k with Some _ => true | None => false end.

(** [d[k]], raising [KeyError] for a missing key. *)
Definition item {V} (d : dict V) (k : Z) : result V :=
  match lookup d k with
  | Some v => Ok v
  | None => Raise KeyError
  end.

(** [ch in s] for a one-character string [ch]. *)
Definition str_contains (s : list Z) (ch : Z) : bool :=
  existsb (Z.eqb ch) s.

(** [ch.isspace()]: the code points CPython's [str.strip()] removes
    (bidirectional class WS, B or S, or category Zs). *)
Definition isspace (c : Z) : bool :=
  ((0x09 <=? c) && (c <=? 0x0D)) || ((0x1C <=? c) && (c <=? 0x20))
  || (c =? 0x85) || (c =? 0xA0) || (c =? 0x1680)
  || ((0x2000 <=? c) && (c <=? 0x200A))
  || (c =? 0x2028) || (c =? 0x2029) || (c =? 0x202F) || (c =? 0x205F)
  || (c =? 0x3000).

Fixpoint lstrip (s : list Z) : list Z :=
  match s with
  | [] => []
  | c :: s' => if isspace c then lstrip s' else s
  end.

Definition rstrip (s : list Z) : list Z := rev (lstrip (rev s)).

(** [s.strip()] *)
Definition strip (s : list Z) : list Z := rstrip (lstrip s).

Definition NL : Z := 0x0A.

(** [s.split('\n')]: always at least one piece. *)
Fixpoint split_nl (s : list Z) : list (list Z) :=
  match s with
  | [] => [[]]
  | c :: s' =>
      if c =? NL then [] :: split_nl s'
      else match split_nl s' with
           | [] => [[c]]
           | l :: ls => (c :: l) :: ls
           end
  end.

(** ['\n'.join(ls)] *)
Fixpoint join_nl (ls : list (list Z)) : list Z :=
  match ls with
  | [] => []
  | [l] => l
  | l :: ls' => l ++ NL :: join_nl ls'
  end.

(** Truth value of a string: [not s] holds for the empty one. *)
Definition is_empty {A} (s : list A) : bool :=
  match s with [] => true | _ => false end.

(** Truth value of a slot that holds a one-character string or [None]. *)
Definition present {A} (o : option A) : bool :=
  match o with Some _ => true | None => false end.

(** [b and o] for a boolean [b] and a slot [o]: the slot when [b] holds,
    a false value otherwise. *)
Definition and_slot {A} (b : bool) (o : option A) : option A :=
  if b then o else None.

End Py.

Import Py.

Declare Scope py_scope.
Notation "x <- m ;; k" := (bind m (fun x => k))
  (at level 61, m at next level, right associativity) : py_scope.
Notation "' p <- m ;; k" := (bind m (fun x => match x with p => k end))
  (at level 61, p pattern, m at next level, right associativity) : py_scope.
Open Scope py_scope.

(* ================================================================= *)
(** ** Tables *)

(** One row of [_AR_FORMS]: the tuple (isolated, final, initial, medial).
    Slot 0 is a string in every row; the other slots may be [None]. *)
Record forms : Type := Forms {
  isolated : Z;
  final : option Z;
  initial : option Z;
  medial : option Z
}.

Definition F2 (iso fin : Z) : forms := Forms iso (Some fin) None None.
Definition F4 (iso fin ini med : Z) : forms :=
  Forms iso (Some fin) (Some ini) (Some med).

Definition _AR_FORMS : dict forms :=
  [ (0x621, Forms 0xFE80 None None None);
    (0x622, F2 0xFE81 0xFE82);
    (0x623, F2 0xFE83 0xFE84);
    (0x624, F2 0xFE85 0xFE86);
    (0x625, F2 0xFE87 0xFE88);
    (0x626, F4 0xFE89 0xFE8A 0xFE8B 0xFE8C);
    (0x627, F2 0xFE8D 0xFE8E);
    (0x628, F4 0xFE8F 0xFE90 0xFE91 0xFE92);
    (0x629, F2 0xFE93 0xFE94);
    (0x62A, F4 0xFE95 0xFE96 0xFE97 0xFE98);
    (0x62B, F4 0xFE99 0xFE9A 0xFE9B 0xFE9C);
    (0x62C, F4 0xFE9D 0xFE9E 0xFE9F 0xFEA0);
    (0x62D, F4 0xFEA1 0xFEA2 0xFEA3 0xFEA4);
    (0x62E, F4 0xFEA5 0xFEA6 0xFEA7 0xFEA8);
    (0x62F, F2 0xFEA9 0xFEAA);
    (0x630, F2 0xFEAB 0xFEAC);
    (0x631, F2 0xFEAD 0xFEAE);
    (0x632, F2 0xFEAF 0xFEB0);
    (0x633, F4 0xFEB1 0xFEB2 0xFEB3 0xFEB4);
    (0x634, F4 0xFEB5 0xFEB6 0xFEB7 0xFEB8);
    (0x635, F4 0xFEB9 0xFEBA 0xFEBB 0xFEBC);
    (0x636, F4 0xFEBD 0xFEBE 0xFEBF 0xFEC0);
    (0x637, F4 0xFEC1 0xFEC2 0xFEC3 0xFEC4);
    (0x638, F4 0xFEC5 0xFEC6 0xFEC7 0xFEC8);
    (0x639, F4 0xFEC9 0xFECA 0xFECB 0xFECC);
    (0x63A, F4 0xFECD 0xFECE 0xFECF 0xFED0);
    (0x641, F4 0xFED1 0xFED2 0xFED3 0xFED4);
    (0x642, F4 0xFED5 0xFED6 0xFED7 0xFED8);
    (0x643, F4 0xFED9 0xFEDA 0xFEDB 0xFEDC);
    (0x644, F4 0xFEDD 0xFEDE 0xFEDF 0xFEE0);
    (0x645, F4 0xFEE1 0xFEE2 0xFEE3 0xFEE4);
    (0x646, F4 0xFEE5 0xFEE6 0xFEE7 0xFEE8);
    (0x647, F4 0xFEE9 0xFEEA 0xFEEB 0xFEEC);
    (0x648, F2 0xFEED 0xFEEE);
    (0x649, F2 0xFEEF 0xFEF0);
    (0x64A, F4 0xFEF1 0xFEF2 0xFEF3 0xFEF4) ].

(** [_LAM_ALEF]: per alef variant, (isolated ligature, final ligature). *)
Definition _LAM_ALEF : dict (Z * Z) :=
  [ (0x622, (0xFEF5, 0xFEF6));
    (0x623, (0xFEF7, 0xFEF8));
    (0x625, (0xFEF9, 0xFEFA));
    (0x627, (0xFEFB, 0xFEFC)) ].

(** The letter lam, U+0644. *)
Definition LAM : Z := 0x644.

(* ================================================================= *)
(** ** Classifier *)

(** [U+0600 <= ch <= U+06FF], on one-character strings. *)
Definition _is_arabic (ch : Z) : bool := (0x600 <=? ch) && (ch <=? 0x6FF).

(** [ch in _AR_FORMS and _AR_FORMS[ch][2] is not None] *)
Definition _connects_left (ch : Z) : result bool :=
  if contains _AR_FORMS ch
  then f <- item _AR_FORMS ch ;; Ok (present (initial f))
  else Ok false.

(** The string of line 98: space, Arabic comma, Arabic question mark,
    exclamation mark, en dash, hyphen-minus, line feed. *)
Definition BREAKS : list Z := [0x20; 0x60C; 0x61F; 0x21; 0x2013; 0x2D; 0x0A].

(** The string of line 133: Arabic comma, Arabic question mark,
    exclamation mark. *)
Definition AR_PUNCT : list Z := [0x60C; 0x61F; 0x21].

(* ================================================================= *)
(** ** Shaper *)

(** [i > 0 and _connects_left(chars[i - 1])] *)
Definition prev_conn_at (chars : list Z) (i : Z) : result bool :=
  if 0 <? i then p <- getitem chars (i - 1) ;; _connects_left p
  else Ok false.

(** [chars[i + 1] if i + 1 < len(chars)], else the empty string, which is
    [None] here. *)
Definition nxt_at (chars : list Z) (i : Z) : result (option Z) :=
  if i + 1 <? len chars then c <- getitem chars (i + 1) ;; Ok (Some c)
  else Ok None.

(** [(_is_arabic(nxt) or nxt in _AR_FORMS) and nxt not in BREAKS]; for the
    empty string both [_is_arabic] and the table test are false. *)
Definition next_ar_of (nxt : option Z) : bool :=
  match nxt with
  | None => false
  | Some c =>
      (_is_arabic c || contains _AR_FORMS c) && negb (str_contains BREAKS c)
  end.

(** The [if / elif / elif / else] of lines 101 to 104. *)
Definition select_form (f : forms) (prev_conn next_ar : bool) : Z :=
  let can_left := present (initial f) in
  match and_slot (prev_conn && next_ar && can_left) (medial f) with
  | Some m => m
  | None =>
      match and_slot prev_conn (final f) with
      | Some fi => fi
      | None =>
          match and_slot (next_ar && can_left) (initial f) with
          | Some ini => ini
          | None => isolated f
          end
      end
  end.

(** [ch == LAM and i + 1 < len(chars) and chars[i + 1] in _LAM_ALEF] *)
Definition lam_alef_at (chars : list Z) (ch : Z) (i : Z) : result bool :=
  if (ch =? LAM) && (i + 1 <? len chars)
  then a <- getitem chars (i + 1) ;; Ok (contains _LAM_ALEF a)
  else Ok false.

(** One turn of the [while] loop of [_shape_run], from the state
    [(shaped, i)] to the next one. *)
Definition shape_body (chars shaped : list Z) (i : Z) : result (list Z * Z) :=
  ch <- getitem chars i ;;
  if negb (contains _AR_FORMS ch) then Ok (shaped ++ [ch], i + 1)
  else
    lig <- lam_alef_at chars ch i ;;
    if lig then
      prev_conn <- prev_conn_at chars i ;;
      a <- getitem chars (i + 1) ;;
      la <- item _LAM_ALEF a ;;
      Ok (shaped ++ [if prev_conn then snd la else fst la], i + 2)
    else
      f <- item _AR_FORMS ch ;;
      prev_conn <- prev_conn_at chars i ;;
      nxt <- nxt_at chars i ;;
      Ok (shaped ++ [select_form f prev_conn (next_ar_of nxt)], i + 1).

Fixpoint shape_loop (fuel : nat) (chars shaped : list Z) (i : Z)
  : result (list Z) :=
  if i <? len chars then
    match fuel with
    | O => Raise OutOfFuel
    | S fuel' =>
        '(shaped', i') <- shape_body chars shaped i ;;
        shape_loop fuel' chars shaped' i'
    end
  else Ok shaped.

Definition _shape_run (chars : list Z) : result (list Z) :=
  shape_loop (length chars) chars [] 0.

(* ================================================================= *)
(** ** Segmenter *)

(** The tag of a segment is the value of [cur_ar]: [None], [True] or
    [False]. *)
Definition segment : Type := (option bool * list Z)%type.

(** [_is_arabic(ch) or ch in AR_PUNCT] *)
Definition is_ar_of (ch : Z) : bool := _is_arabic ch || str_contains AR_PUNCT ch.

(** The variables [segs], [cur], [cur_ar] of the segmenting loop. *)
Record seg_state : Type := SegState {
  segs : list segment;
  cur : list Z;
  cur_ar : option bool
}.

(** [is_ar != cur_ar], between a boolean and a boolean or [None]. *)
Definition differs (is_ar : bool) (tag : option bool) : bool :=
  match tag with
  | None => true
  | Some b => negb (Bool.eqb is_ar b)
  end.

(** The body of [for ch in line] (lines 133 to 140). *)
Definition seg_step (st : seg_state) (ch : Z) : seg_state :=
  let is_ar := is_ar_of ch in
  if differs is_ar (cur_ar st) && negb (is_empty (cur st))
  then SegState (segs st ++ [(cur_ar st, cur st)]) [ch] (Some is_ar)
  else SegState (segs st) (cur st ++ [ch])
         (match cur_ar st with None => Some is_ar | Some b => Some b end).

(** Lines 131 to 142: the segments of one line. *)
Definition segments (line : list Z) : list segment :=
  let st := fold_left seg_step line (SegState [] [] None) in
  if negb (is_empty (cur st)) then segs st ++ [(cur_ar st, cur st)]
  else segs st.

(* ================================================================= *)
(** ** Composer *)

Inductive direction : Type := Dar | Dltr.

(** Truth value of a segment tag in [if is_ar]. *)
Definition tag_true (tag : option bool) : bool :=
  match tag with Some true => true | _ => false end.

(** Lines 145 to 150, for one segment: the part it contributes. *)
Definition part_of (sg : segment) : result (direction * list Z) :=
  let '(is_ar, seg) := sg in
  if tag_true is_ar then
    shaped <- _shape_run (strip seg) ;;
    Ok (Dar, rev shaped)
  else Ok (Dltr, seg).

(** The loop of lines 144 to 150 over all segments. *)
Fixpoint parts_of (sgs : list segment) : result (list (direction * list Z)) :=
  match sgs with
  | [] => Ok []
  | sg :: sgs' =>
      p <- part_of sg ;;
      ps <- parts_of sgs' ;;
      Ok (p :: ps)
  end.

(** The body of [for line in text.split] (lines 127 to 153): the string
    appended to [result_lines]. *)
Definition ar_line (line : list Z) : result (list Z) :=
  if is_empty (strip line) then Ok []
  else
    parts <- parts_of (segments line) ;;
    Ok (concat (map snd (rev parts))).

(** The list [result_lines] at the end of the loop over the lines. *)
Fixpoint result_lines (lines : list (list Z)) : result (list (list Z)) :=
  match lines with
  | [] => Ok []
  | line :: lines' =>
      r <- ar_line line ;;
      rs <- result_lines lines' ;;
      Ok (r :: rs)
  end.

Definition ar (text : list Z) : result (list Z) :=
  if is_empty text then Ok text
  else
    rs <- result_lines (split_nl text) ;;
    Ok (join_nl rs).


(* ================================================================= *)
(** ** The loop read off the list

    Pure counterparts of the guarded reads of [shape_body]; the lemmas
    below show that the monadic code computes exactly these. *)

(** The letter [ch] joins forward: it has a row whose initial slot is
    present. *)
Definition connects (ch : Z) : bool :=
  match lookup _AR_FORMS ch with
  | Some f => present (initial f)
  | None => false
  end.

(** The value of [prev_conn] at index [i], read off the list. *)
Definition prev_connb (chars : list Z) (i : Z) : bool :=
  if 0 <? i
  then match nth_error chars (Z.to_nat (i - 1)) with
       | Some p => connects p
       | None => false
       end
  else false.

(** The value of [next_ar] at index [i], read off the list. *)
Definition next_joinb (chars : list Z) (i : Z) : bool :=
  next_ar_of (nth_error chars (Z.to_nat (i + 1))).

(** The ligature row selected at index [i], if the ligature test holds. *)
Definition lig_here (chars : list Z) (i : Z) (ch : Z) : option (Z * Z) :=
  if ch =? LAM
  then match nth_error chars (Z.to_nat (i + 1)) with
       | Some a => lookup _LAM_ALEF a
       | None => None
       end
  else None.

(** What one turn of the loop appends and how far it advances. *)
Definition turn (chars : list Z) (i ch : Z) : Z * Z :=
  match lookup _AR_FORMS ch with
  | None => (ch, 1)
  | Some f =>
      match lig_here chars i ch with
      | Some la => (if prev_connb chars i then snd la else fst la, 2)
      | None => (select_form f (prev_connb chars i) (next_joinb chars i), 1)
      end
  end.


(** The states [(shaped, i)] the loop of [_shape_run] passes through on
    the run [chars], from [([], 0)] on, one turn at a time. *)
Inductive scan (chars : list Z) : list Z -> Z -> Prop :=
| scan_start : scan chars [] 0
| scan_turn (shaped : list Z) (i : Z) (shaped' : list Z) (i' : Z) :
    scan chars shaped i ->
    i < len chars ->
    shape_body chars shaped i = Ok (shaped', i') ->
    scan chars shaped' i'.

(* ================================================================= *)
(** ** The specification's vocabulary *)

(** The four alef variants that form a ligature with lam. *)
Definition ALEFS : list Z := [0x622; 0x623; 0x625; 0x627].

(** The character at position [i] is lam and the next one is one of the
    four alef variants. *)
Definition starts_lam_alef (chars : list Z) (i : Z) : Prop :=
  nth_error chars (Z.to_nat i) = Some LAM /\
  exists a, nth_error chars (Z.to_nat (i + 1)) = Some a /\ In a ALEFS.

(** [i > 0] and the previous character has a table entry with a present
    initial slot. *)
Definition prev_connects (chars : list Z) (i : Z) : Prop :=
  0 < i /\
  exists p f x,
    nth_error chars (Z.to_nat (i - 1)) = Some p /\
    lookup _AR_FORMS p = Some f /\ initial f = Some x.

(** A next character exists, is an Arabic-block code point or has a table
    entry, and is none of space, Arabic comma, Arabic question mark,
    exclamation mark, en dash, hyphen, newline. *)
Definition next_joinable (chars : list Z) (i : Z) : Prop :=
  exists n,
    nth_error chars (Z.to_nat (i + 1)) = Some n /\
    (0x600 <= n <= 0x6FF \/ exists f, lookup _AR_FORMS n = Some f) /\
    ~ In n [0x20; 0x60C; 0x61F; 0x21; 0x2013; 0x2D; 0x0A].

(** The character at position [i] is the alef of a lam+alef pair that
    starts at the position before. *)
Definition taken_by_lam (chars : list Z) (i : Z) : Prop :=
  0 < i /\ starts_lam_alef chars (i - 1).

Definition slot_present (o : option Z) : Prop := o <> None.

(** This letter's initial slot is present. *)
Definition can_be_initial (f : forms) : Prop := slot_present (initial f).

Definition medial_applies (f : forms) (PC NJ : Prop) : Prop :=
  PC /\ NJ /\ can_be_initial f /\ slot_present (medial f).

Definition final_applies (f : forms) (PC : Prop) : Prop :=
  PC /\ slot_present (final f).

Definition initial_applies (f : forms) (NJ : Prop) : Prop :=
  NJ /\ can_be_initial f /\ slot_present (initial f).

(** The priority order medial, final, initial, isolated: [o] is the code
    point of the first form whose condition holds. *)
Definition priority_choice (f : forms) (PC NJ : Prop) (o : Z) : Prop :=
  (medial_applies f PC NJ /\ medial f = Some o)
  \/ (~ medial_applies f PC NJ /\ final_applies f PC /\ final f = Some o)
  \/ (~ medial_applies f PC NJ /\ ~ final_applies f PC /\
      initial_applies f NJ /\ initial f = Some o)
  \/ (~ medial_applies f PC NJ /\ ~ final_applies f PC /\
      ~ initial_applies f NJ /\ o = isolated f).

(** The units the shaper consumes: one character, or lam with one of the
    four alef variants after it. *)
Inductive token : Type :=
| Single (c : Z)
| Pair (a : Z).

(** Left to right, a lam immediately followed by one of the four alef
    variants is a pair, every other character is on its own. *)
Fixpoint tokenize (l : list Z) : list token :=
  match l with
  | [] => []
  | c :: tl =>
      match tl with
      | [] => [Single c]
      | a :: tl' =>
          if (c =? LAM) && str_contains ALEFS a
          then Pair a :: tokenize tl'
          else Single c :: tokenize tl
      end
  end.

Definition token_chars (t : token) : list Z :=
  match t with
  | Single c => [c]
  | Pair a => [LAM; a]
  end.

Definition is_pair (t : token) : bool :=
  match t with Pair _ => true | Single _ => false end.

(** The number of lam+alef pairs of a run. *)
Definition lam_alef_pairs (l : list Z) : nat :=
  length (filter is_pair (tokenize l)).

(** The defined substitutions: a character without a table entry stays
    itself, a character with one becomes one of its own forms, a pair
    becomes one of the two ligatures of its alef. *)
Definition emits (t : token) (o : Z) : Prop :=
  match t with
  | Single c =>
      match lookup _AR_FORMS c with
      | None => o = c
      | Some f =>
          o = isolated f \/ final f = Some o \/ initial f = Some o \/
          medial f = Some o
      end
  | Pair a =>
      exists la, lookup _LAM_ALEF a = Some la /\ (o = fst la \/ o = snd la)
  end.

(* ================================================================= *)
(** ** Invariant of the segmenting loop *)

(** A segment whose characters all have the class its tag names. *)
Definition uniform (sg : segment) : Prop :=
  exists b, fst sg = Some b /\ Forall (fun c => is_ar_of c = b) (snd sg).

(** The open buffer is empty and untagged, or tagged with the class of all
    its characters. *)
Definition seg_inv (st : seg_state) : Prop :=
  Forall uniform (segs st) /\
  ((cur st = [] /\ cur_ar st = None) \/
   (cur st <> [] /\ uniform (cur_ar st, cur st))).

(* ================================================================= *)
(** ** Inputs named in the specification *)

(** The text holds no code point of U+0600..U+06FF and none of the Arabic
    comma, the Arabic question mark and the exclamation mark. *)
Definition no_arabic (text : list Z) : Prop :=
  forall c, In c text ->
    ~ (0x600 <= c <= 0x6FF) /\ c <> 0x60C /\ c <> 0x61F /\ c <> 0x21.

(** A line that is empty or holds a character that is not whitespace. *)
Definition not_blank (line : list Z) : Prop :=
  line = [] \/ exists c, In c line /\ isspace c = false.

(** The word of the scenario: meem, reh, hah, beh, alef. *)
Definition MARHABA : list Z := [0x645; 0x631; 0x62D; 0x628; 0x627].

(** The Latin word of the scenario, [Hello]. *)
Definition HELLO : list Z := [0x48; 0x65; 0x6C; 0x6C; 0x6F].

(** The scenario's input: the Arabic word, a space, the Latin word. *)
Definition MARHABA_HELLO : list Z := MARHABA ++ 0x20 :: HELLO.

(** The Arabic word shaped: initial meem, final reh, initial hah, medial
    beh, final alef. *)
Definition MARHABA_SHAPED : list Z := [0xFEE3; 0xFEAE; 0xFEA3; 0xFE92; 0xFE8E].

(* ================================================================= *)
(** ** Checks over the rows of the tables *)

(** Arabic Presentation Forms-B code points the form table holds. *)
Definition form_code (o : Z) : bool := (0xFE80 <=? o) && (o <=? 0xFEF4).

(** Code points the ligature table holds. *)
Definition ligature_code (o : Z) : bool := (0xFEF5 <=? o) && (o <=? 0xFEFC).

Definition slot_ok (p : Z -> bool) (o : option Z) : bool :=
  match o with Some x => p x | None => true end.

(** The key is a letter of U+0621..U+064A and every slot holds a
    presentation form. *)
Definition row_in_range (kv : Z * forms) : bool :=
  let '(k, f) := kv in
  (0x621 <=? k) && (k <=? 0x64A) && form_code (isolated f)
  && slot_ok form_code (final f) && slot_ok form_code (initial f)
  && slot_ok form_code (medial f).

(** A row has all four forms, or no initial and no medial form. *)
Definition row_shape (kv : Z * forms) : bool :=
  match initial (snd kv), medial (snd kv), final (snd kv) with
  | Some _, Some _, Some _ => true
  | None, None, _ => true
  | _, _, _ => false
  end.

Fixpoint distinctb (l : list Z) : bool :=
  match l with
  | [] => true
  | x :: l' => negb (existsb (Z.eqb x) l') && distinctb l'
  end.

Definition slot_list (o : option Z) : list Z :=
  match o with Some x => [x] | None => [] end.

(** The forms of one row are different code points. *)
Definition row_distinct (kv : Z * forms) : bool :=
  let f := snd kv in
  distinctb (isolated f :: slot_list (final f) ++ slot_list (initial f)
               ++ slot_list (medial f)).

(** An alef of the ligature table has a form row without initial form, and
    its ligatures are ligature code points. *)
Definition lig_row_ok (kv : Z * (Z * Z)) : bool :=
  let '(a, (iso, fin)) := kv in
  negb (connects a) && contains _AR_FORMS a
  && ligature_code iso && ligature_code fin.

(* ================================================================= *)
(** ** Vocabulary for the segmenter's further properties *)

(** Neighbouring tags differ. *)
Fixpoint alternating (tags : list (option bool)) : Prop :=
  match tags with
  | t1 :: ((t2 :: _) as rest) => t1 <> t2 /\ alternating rest
  | _ => True
  end.

(** The segmenter state with closed segments [pre] put in front. *)
Definition prepend (pre : list segment) (st : seg_state) : seg_state :=
  SegState (pre ++ segs st) (cur st) (cur_ar st).

(** Lines 141 and 142: the open buffer, if any, becomes the last segment. *)
Definition close (st : seg_state) : list segment :=
  if negb (is_empty (cur st)) then segs st ++ [(cur_ar st, cur st)]
  else segs st.

(** Closed segments are never empty and hold one class; the tags of the
    closed segments and of the open buffer alternate. *)
Definition run_inv (st : seg_state) : Prop :=
  (cur st = [] /\ cur_ar st = None /\ segs st = []) \/
  (cur st <> [] /\ uniform (cur_ar st, cur st) /\
   Forall (fun sg => snd sg <> [] /\ uniform sg) (segs st) /\
   alternating (map fst (segs st) ++ [cur_ar st])).

(** The line holds a character that is not whitespace. *)
Definition inked (line : list Z) : Prop :=
  exists c, In c line /\ isspace c = false.

(** A code point of the output: a character of [src] without table entry,
    or a presentation form of U+FE80..U+FEFC. *)
Definition code_ok (src : list Z) (o : Z) : Prop :=
  (In o src /\ lookup _AR_FORMS o = None) \/ 0xFE80 <= o <= 0xFEFC.

(** Every Arabic-class character of the text is a letter of the form
    table. *)
Definition letters_only (text : list Z) : Prop :=
  forall c, In c text -> is_ar_of c = true -> lookup _AR_FORMS c <> None.

(* ================================================================= *)
(** ** [_strip_emoji] *)

(** The character class of the pattern of line 162: U+1F300..U+1F9FF,
    U+2600..U+27BF, U+FE00..U+FE0F and U+200D. *)
Definition is_emoji (c : Z) : bool :=
  ((0x1F300 <=? c) && (c <=? 0x1F9FF)) || ((0x2600 <=? c) && (c <=? 0x27BF))
  || ((0xFE00 <=? c) && (c <=? 0xFE0F)) || (c =? 0x200D).

(** [re.sub] of a pattern that is one character class repeated once or
    more, with the empty string as replacement: the matches are the maximal
    runs of class characters, so every class character is dropped and every
    other character kept. *)
Fixpoint re_sub_class (cls : Z -> bool) (text : list Z) : list Z :=
  match text with
  | [] => []
  | c :: text' =>
      if cls c then re_sub_class cls text' else c :: re_sub_class cls text'
  end.

Definition _strip_emoji (text : list Z) : list Z :=
  strip (re_sub_class is_emoji text).

(** A character [_strip_emoji] has no reason to remove: neither in the
    class nor whitespace. *)
Definition solid (c : Z) : bool := negb (is_emoji c) && negb (isspace c).

(* ================================================================= *)
(** ** The label and content texts of a cell ([_generate_pdf]) *)

(** Lines 724 to 727: the English and the Arabic text of a cell label. *)
Definition label_texts (label : list Z) : result (list Z * list Z) :=
  let label_clean := _strip_emoji label in
  let parts_label := split_nl label_clean in
  p0 <- getitem parts_label 0 ;;
  let label_en_txt := strip p0 in
  label_ar_txt <-
    (if 1 <? len parts_label
     then p1 <- getitem parts_label 1 ;; Ok (strip p1)
     else Ok []) ;;
  Ok (label_en_txt, label_ar_txt).

(** The string of line 748: a bullet and a space. *)
Definition BULLET : list Z := [0x2022; 0x20].

(** The string of line 750, shown for a cell without content. *)
Definition PLACEHOLDER : list Z :=
  [0x644; 0x645; 0x20; 0x62A; 0x62A; 0x645; 0x20; 0x627; 0x644; 0x625;
   0x636; 0x627; 0x641; 0x629; 0x20; 0x628; 0x639; 0x62F].

Section CellContent.

(** The paragraph objects and paragraph styles of reportlab, which is not
    part of this repository. *)
Variable Para : Type.
Variable Style : Type.

(** [Paragraph(text, style)]; it reads its text as markup and can raise:
    [None] stands for a call that raises. *)
Variable Paragraph : list Z -> Style -> option Para.

(** The styles of lines 692 and 693. *)
Variable cell_con_s : Style.
Variable empty_s : Style.

(** Lines 745 to 748: the paragraphs made from the lines of the content;
    a call that raises ends the loop. *)
Fixpoint content_line_paragraphs (lines : list (list Z))
  : option (list Para) :=
  match lines with
  | [] => Some []
  | line :: lines' =>
      let line := strip line in
      if negb (is_empty line) then
        match ar (BULLET ++ line) with
        | Raise _ => None
        | Ok t =>
            match Paragraph t cell_con_s with
            | None => None
            | Some p =>
                match content_line_paragraphs lines' with
                | None => None
                | Some ps => Some (p :: ps)
                end
            end
        end
      else content_line_paragraphs lines'
  end.

(** Lines 729 and 744 to 750: the content paragraphs of a cell, from the
    stored string [raw] (the value of [canvas_data.get(key, '')]). *)
Definition content_paragraphs (raw : list Z) : option (list Para) :=
  let content := strip raw in
  if negb (is_empty content) then content_line_paragraphs (split_nl content)
  else
    match ar PLACEHOLDER with
    | Raise _ => None
    | Ok t =>
        match Paragraph t empty_s with
        | None => None
        | Some p => Some [p]
        end
    end.

End CellContent.

Arguments content_line_paragraphs {Para Style} Paragraph cell_con_s lines.
Arguments content_paragraphs {Para Style} Paragraph cell_con_s empty_s raw.

(** The label of the first cell of the first canvas: a handshake emoji,
    [Key Partnerships], a line feed and the Arabic label. *)
Definition KEY_PARTNERS_EN : list Z :=
  [0x4B; 0x65; 0x79; 0x20; 0x50; 0x61; 0x72; 0x74; 0x6E; 0x65; 0x72; 0x73;
   0x68; 0x69; 0x70; 0x73].

Definition KEY_PARTNERS_AR : list Z :=
  [0x627; 0x644; 0x634; 0x631; 0x627; 0x643; 0x627; 0x62A; 0x20; 0x627;
   0x644; 0x631; 0x626; 0x64A; 0x633; 0x64A; 0x629].
(* ================================================================= *)
(** ** Indexing and table lookups never raise where the code guards them *)

Lemma len_nonneg {A} (l : list A) : 0 <= len l.
Proof. unfold len; lia. Qed.

Lemma getitem_in_range {A} (l : list A) (i : Z) :
  0 <= i < len l ->
  exists x, nth_error l (Z.to_nat i) = Some x /\ getitem l i = Ok x.
Proof.
  intros Hi. unfold getitem.
  destruct (Z.ltb_spec i 0) as [Hneg | _]; [lia |].
  destruct (Z.ltb_spec i 0) as [Hneg | _]; [lia |].
  destruct (nth_error l (Z.to_nat i)) as [x |] eqn:Hx.
  - exists x; split; reflexivity.
  - apply nth_error_None in Hx. unfold len in Hi. lia.
Qed.

Lemma getitem_nth {A} (l : list A) (i : Z) (x : A) :
  0 <= i -> nth_error l (Z.to_nat i) = Some x -> getitem l i = Ok x.
Proof.
  intros Hi Hx. unfold getitem.
  destruct (Z.ltb_spec i 0) as [Hneg | _]; [lia |].
  destruct (Z.ltb_spec i 0) as [Hneg | _]; [lia |].
  rewrite Hx. reflexivity.
Qed.

Lemma nth_error_in_range {A} (l : list A) (i : Z) (x : A) :
  0 <= i -> nth_error l (Z.to_nat i) = Some x -> i < len l.
Proof.
  intros Hi Hx.
  assert (Hlt : (Z.to_nat i < length l)%nat)
    by (apply nth_error_Some; rewrite Hx; discriminate).
  unfold len. lia.
Qed.

Lemma nth_error_out_of_range {A} (l : list A) (i : Z) :
  len l <= i -> nth_error l (Z.to_nat i) = None.
Proof. intros Hi. apply nth_error_None. unfold len in Hi. lia. Qed.

Lemma contains_lookup {V} (d : dict V) (k : Z) :
  contains d k = present (lookup d k).
Proof. reflexivity. Qed.

Lemma item_lookup {V} (d : dict V) (k : Z) (v : V) :
  lookup d k = Some v -> item d k = Ok v.
Proof. intros H. unfold item. rewrite H. reflexivity. Qed.

Lemma connects_left_ok (ch : Z) : _connects_left ch = Ok (connects ch).
Proof.
  unfold _connects_left, connects, contains, item.
  destruct (lookup _AR_FORMS ch); reflexivity.
Qed.

Lemma prev_conn_at_ok (chars : list Z) (i : Z) :
  0 <= i <= len chars -> prev_conn_at chars i = Ok (prev_connb chars i).
Proof.
  intros Hi. unfold prev_conn_at, prev_connb.
  destruct (Z.ltb_spec 0 i) as [Hpos | _]; [| reflexivity].
  destruct (getitem_in_range chars (i - 1)) as [p [Hn Hg]]; [lia |].
  rewrite Hg, Hn. cbn. apply connects_left_ok.
Qed.

Lemma nxt_at_ok (chars : list Z) (i : Z) :
  0 <= i -> nxt_at chars i = Ok (nth_error chars (Z.to_nat (i + 1))).
Proof.
  intros Hi. unfold nxt_at.
  destruct (Z.ltb_spec (i + 1) (len chars)) as [Hlt | Hge].
  - destruct (getitem_in_range chars (i + 1)) as [c [Hn Hg]]; [lia |].
    rewrite Hg, Hn. reflexivity.
  - rewrite nth_error_out_of_range by lia. reflexivity.
Qed.

Lemma lam_alef_at_ok (chars : list Z) (ch i : Z) :
  0 <= i -> lam_alef_at chars ch i = Ok (present (lig_here chars i ch)).
Proof.
  intros Hi. unfold lam_alef_at, lig_here.
  destruct (ch =? LAM); cbn [andb]; [| reflexivity].
  destruct (Z.ltb_spec (i + 1) (len chars)) as [Hlt | Hge].
  - destruct (getitem_in_range chars (i + 1)) as [a [Hn Hg]]; [lia |].
    rewrite Hg, Hn. reflexivity.
  - rewrite nth_error_out_of_range by lia. reflexivity.
Qed.

Lemma shape_body_turn (chars shaped : list Z) (i ch : Z) :
  0 <= i ->
  nth_error chars (Z.to_nat i) = Some ch ->
  shape_body chars shaped i =
    Ok (shaped ++ [fst (turn chars i ch)], i + snd (turn chars i ch)).
Proof.
  intros Hi Hch.
  pose proof (nth_error_in_range _ _ _ Hi Hch) as Hlt.
  unfold shape_body, turn.
  rewrite (getitem_nth _ _ _ Hi Hch). cbn [bind].
  rewrite contains_lookup.
  destruct (lookup _AR_FORMS ch) as [f |] eqn:Hf; cbn [present negb];
    [| reflexivity].
  rewrite lam_alef_at_ok by lia. cbn [bind].
  destruct (lig_here chars i ch) as [la |] eqn:Hlig; cbn [present].
  - rewrite prev_conn_at_ok by lia. cbn [bind].
    unfold lig_here in Hlig.
    destruct (ch =? LAM); [| discriminate].
    destruct (nth_error chars (Z.to_nat (i + 1))) as [a |] eqn:Ha;
      [| discriminate].
    rewrite (getitem_nth chars (i + 1) a) by (lia || assumption).
    cbn [bind]. rewrite (item_lookup _ _ _ Hlig). reflexivity.
  - rewrite (item_lookup _ _ _ Hf). cbn [bind].
    rewrite prev_conn_at_ok by lia. cbn [bind].
    rewrite nxt_at_ok by lia. reflexivity.
Qed.

Lemma turn_advance (chars : list Z) (i ch : Z) :
  0 <= i ->
  nth_error chars (Z.to_nat i) = Some ch ->
  1 <= snd (turn chars i ch) <= 2 /\ i + snd (turn chars i ch) <= len chars.
Proof.
  intros Hi Hch.
  pose proof (nth_error_in_range _ _ _ Hi Hch) as Hlt.
  unfold turn.
  destruct (lookup _AR_FORMS ch); [| cbn; lia].
  destruct (lig_here chars i ch) eqn:Hlig; [| cbn; lia].
  cbn. split; [lia |].
  unfold lig_here in Hlig.
  destruct (ch =? LAM); [| discriminate].
  destruct (nth_error chars (Z.to_nat (i + 1))) eqn:Ha; [| discriminate].
  pose proof (nth_error_in_range chars (i + 1) z ltac:(lia) Ha). lia.
Qed.

(* ================================================================= *)
(** ** The loop of [_shape_run] *)

Lemma shape_body_in_range (chars shaped : list Z) (i : Z) :
  0 <= i < len chars ->
  exists ch,
    nth_error chars (Z.to_nat i) = Some ch /\
    shape_body chars shaped i =
      Ok (shaped ++ [fst (turn chars i ch)], i + snd (turn chars i ch)).
Proof.
  intros Hi.
  destruct (getitem_in_range chars i Hi) as [ch [Hn _]].
  exists ch. split; [exact Hn |].
  apply shape_body_turn; [lia | exact Hn].
Qed.

Lemma scan_range (chars shaped : list Z) (i : Z) :
  scan chars shaped i -> 0 <= i <= len chars.
Proof.
  induction 1 as [| shaped i shaped' i' _ IH Hlt Hbody].
  - pose proof (len_nonneg chars). lia.
  - destruct (shape_body_in_range chars shaped i) as [ch [Hn Hb]]; [lia |].
    rewrite Hb in Hbody. injection Hbody as _ Hi'.
    pose proof (turn_advance chars i ch ltac:(lia) Hn). lia.
Qed.

Lemma shape_loop_S (fuel : nat) (chars shaped : list Z) (i : Z) :
  shape_loop (S fuel) chars shaped i =
    if i <? len chars
    then '(shaped', i') <- shape_body chars shaped i ;;
         shape_loop fuel chars shaped' i'
    else Ok shaped.
Proof. reflexivity. Qed.

(** Once the fuel covers the characters left, its amount does not matter. *)
Lemma shape_loop_fuel (chars : list Z) (f1 : nat) :
  forall (f2 : nat) (shaped : list Z) (i : Z),
    0 <= i ->
    len chars - i <= Z.of_nat f1 ->
    len chars - i <= Z.of_nat f2 ->
    shape_loop f1 chars shaped i = shape_loop f2 chars shaped i.
Proof.
  induction f1 as [| f1 IH]; intros f2 shaped i Hi H1 H2.
  - destruct f2; cbn; destruct (Z.ltb_spec i (len chars)); (reflexivity || lia).
  - destruct f2 as [| f2]; cbn;
      destruct (Z.ltb_spec i (len chars)) as [Hlt | Hge];
      try reflexivity; try lia.
    destruct (shape_body_in_range chars shaped i) as [ch [Hn Hb]]; [lia |].
    rewrite Hb. cbn [bind].
    pose proof (turn_advance chars i ch Hi Hn).
    apply IH; lia.
Qed.

Lemma scan_run (chars shaped : list Z) (i : Z) :
  scan chars shaped i ->
  forall fuel : nat,
    len chars - i <= Z.of_nat fuel ->
    shape_loop fuel chars shaped i = _shape_run chars.
Proof.
  induction 1 as [| shaped i shaped' i' Hscan IH Hlt Hbody]; intros fuel Hfuel.
  - unfold _shape_run. apply shape_loop_fuel; unfold len in *; lia.
  - pose proof (scan_range _ _ _ Hscan) as Hr.
    destruct (shape_body_in_range chars shaped i) as [ch [Hn Hb]]; [lia |].
    pose proof (turn_advance chars i ch ltac:(lia) Hn) as Hadv.
    rewrite Hb in Hbody. injection Hbody as Hs Hi'. subst shaped' i'.
    rewrite <- (IH (S (S fuel))) by lia.
    rewrite shape_loop_S.
    destruct (Z.ltb_spec i (len chars)); [| lia].
    rewrite Hb. cbn [bind].
    apply shape_loop_fuel; lia.
Qed.

Lemma shape_loop_prefix (chars : list Z) (fuel : nat) :
  forall (shaped : list Z) (i : Z),
    0 <= i ->
    len chars - i <= Z.of_nat fuel ->
    exists rest, shape_loop fuel chars shaped i = Ok (shaped ++ rest).
Proof.
  induction fuel as [| fuel IH]; intros shaped i Hi Hfuel; cbn [shape_loop];
    destruct (Z.ltb_spec i (len chars)) as [Hlt | Hge]; try lia;
    try (exists []; rewrite app_nil_r; reflexivity).
  destruct (shape_body_in_range chars shaped i) as [ch [Hn Hb]]; [lia |].
  pose proof (turn_advance chars i ch Hi Hn) as Hadv.
  rewrite Hb. cbn [bind].
  destruct (IH (shaped ++ [fst (turn chars i ch)])
              (i + snd (turn chars i ch))) as [rest Hrest]; [lia | lia |].
  exists (fst (turn chars i ch) :: rest).
  rewrite Hrest, <- app_assoc. reflexivity.
Qed.

(** What the scan has emitted so far is a prefix of the result. *)
Lemma scan_output (chars shaped : list Z) (i : Z) :
  scan chars shaped i ->
  exists rest, _shape_run chars = Ok (shaped ++ rest).
Proof.
  intros Hscan.
  pose proof (scan_range _ _ _ Hscan) as Hr.
  destruct (shape_loop_prefix chars (length chars) shaped i) as [rest Hrest];
    [lia | unfold len; lia |].
  exists rest. rewrite <- Hrest. symmetry.
  apply scan_run; [exact Hscan | unfold len; lia].
Qed.

Lemma shape_run_total (chars : list Z) :
  exists out, _shape_run chars = Ok out.
Proof.
  destruct (scan_output chars [] 0 (scan_start chars)) as [rest Hrest].
  exists rest. exact Hrest.
Qed.

(* ================================================================= *)
(** ** Tables and form selection *)

Ltac case_eqbs :=
  repeat match goal with
         | |- context [Z.eqb ?x ?y] => destruct (Z.eqb_spec x y)
         end.

Lemma lam_alef_present (a : Z) :
  present (lookup _LAM_ALEF a) = str_contains ALEFS a.
Proof.
  unfold str_contains, ALEFS, _LAM_ALEF. cbn [lookup existsb].
  case_eqbs; reflexivity.
Qed.

Lemma str_contains_In (s : list Z) (c : Z) :
  str_contains s c = true <-> In c s.
Proof.
  unfold str_contains. rewrite existsb_exists. split.
  - intros [x [Hin Heq]]. apply Z.eqb_eq in Heq. subst x. exact Hin.
  - intros Hin. exists c. split; [exact Hin | apply Z.eqb_refl].
Qed.

Lemma lookup_LAM : lookup _AR_FORMS LAM = Some (F4 0xFEDD 0xFEDE 0xFEDF 0xFEE0).
Proof. reflexivity. Qed.

Lemma select_form_is_form (f : forms) (pc nj : bool) :
  select_form f pc nj = isolated f \/
  final f = Some (select_form f pc nj) \/
  initial f = Some (select_form f pc nj) \/
  medial f = Some (select_form f pc nj).
Proof.
  destruct f as [iso [fi |] [ini |] [me |]]; destruct pc, nj; cbn; auto.
Qed.

(* ================================================================= *)
(** ** Tokens: what each turn consumes *)

Lemma list_pair_ind {A} (P : list A -> Prop) :
  P [] ->
  (forall x, P [x]) ->
  (forall x y l, P l -> P (y :: l) -> P (x :: y :: l)) ->
  forall l, P l.
Proof.
  intros H0 H1 H2 l.
  enough (H : P l /\ forall x, P (x :: l)) by exact (proj1 H).
  induction l as [| y l [IHl IHc]].
  - split; [exact H0 | exact H1].
  - split; [apply IHc |]. intros x. apply H2; [exact IHl | apply IHc].
Qed.

Lemma tokenize_cons2 (c a : Z) (tl : list Z) :
  tokenize (c :: a :: tl) =
    if (c =? LAM) && str_contains ALEFS a
    then Pair a :: tokenize tl
    else Single c :: tokenize (a :: tl).
Proof. reflexivity. Qed.

(** The tokens partition the run: nothing is dropped, nothing is added. *)
Lemma tokenize_chars (l : list Z) :
  concat (map token_chars (tokenize l)) = l.
Proof.
  induction l as [| x | x y l IHl IHc] using list_pair_ind;
    [reflexivity | reflexivity |].
  rewrite tokenize_cons2.
  destruct (Z.eqb_spec x LAM) as [-> | Hx]; cbn [andb].
  - destruct (str_contains ALEFS y); cbn [map concat token_chars app].
    + rewrite IHl. reflexivity.
    + rewrite IHc. reflexivity.
  - cbn [map concat token_chars app]. rewrite IHc. reflexivity.
Qed.

Lemma tokenize_length (l : list Z) :
  (length (tokenize l) + lam_alef_pairs l = length l)%nat.
Proof.
  unfold lam_alef_pairs.
  induction l as [| x | x y l IHl IHc] using list_pair_ind;
    [reflexivity | reflexivity |].
  rewrite tokenize_cons2.
  destruct ((x =? LAM) && str_contains ALEFS y);
    cbn [filter is_pair length] in *; lia.
Qed.

Lemma skipn_nth_error {A} (l : list A) :
  forall (n : nat) (x : A),
    nth_error l n = Some x -> skipn n l = x :: skipn (S n) l.
Proof.
  induction l as [| y l IH]; intros [| n] x Hx; cbn in *;
    try discriminate.
  - injection Hx as ->. reflexivity.
  - apply IH. exact Hx.
Qed.

(** One turn of the loop consumes exactly the first token of what is left
    and appends a code point that token may emit. *)
Lemma turn_token (chars : list Z) (i ch : Z) :
  0 <= i ->
  nth_error chars (Z.to_nat i) = Some ch ->
  exists tok,
    tokenize (skipn (Z.to_nat i) chars) =
      tok :: tokenize (skipn (Z.to_nat (i + snd (turn chars i ch))) chars) /\
    emits tok (fst (turn chars i ch)).
Proof.
  intros Hi Hch.
  rewrite (skipn_nth_error _ _ _ Hch).
  assert (Hn1 : Z.to_nat (i + 1) = S (Z.to_nat i)) by lia.
  assert (Hn2 : Z.to_nat (i + 2) = S (S (Z.to_nat i))) by lia.
  unfold turn, lig_here. rewrite Hn1.
  destruct (nth_error chars (S (Z.to_nat i))) as [a |] eqn:Ha.
  - rewrite (skipn_nth_error _ _ _ Ha), tokenize_cons2.
    destruct (Z.eqb_spec ch LAM) as [-> | Hne]; cbn [andb].
    + rewrite lookup_LAM, <- lam_alef_present.
      destruct (lookup _LAM_ALEF a) as [la |] eqn:Hla; cbn [present snd fst].
      * exists (Pair a). rewrite Hn2. split; [reflexivity |].
        exists la. split; [exact Hla |].
        destruct (prev_connb chars i); auto.
      * exists (Single LAM). rewrite Hn1, (skipn_nth_error _ _ _ Ha).
        split; [reflexivity |].
        cbn [emits]. rewrite lookup_LAM. apply select_form_is_form.
    + exists (Single ch).
      destruct (lookup _AR_FORMS ch) as [f |] eqn:Hf; cbn [snd fst];
        rewrite Hn1, (skipn_nth_error _ _ _ Ha);
        (split; [reflexivity |]); cbn [emits]; rewrite Hf;
        [apply select_form_is_form | reflexivity].
  - assert (Hnil : skipn (S (Z.to_nat i)) chars = []).
    { apply skipn_all2. apply nth_error_None in Ha. lia. }
    rewrite Hnil. exists (Single ch).
    assert (Hadv : snd (match lookup _AR_FORMS ch with
                        | Some f =>
                            match (if ch =? LAM then None else None) with
                            | Some la =>
                                (if prev_connb chars i then snd la else fst la, 2)
                            | None =>
                                (select_form f (prev_connb chars i)
                                   (next_joinb chars i), 1)
                            end
                        | None => (ch, 1)
                        end) = 1).
    { destruct (lookup _AR_FORMS ch); destruct (ch =? LAM); reflexivity. }
    rewrite Hadv, Hn1, Hnil. split; [reflexivity |].
    cbn [emits].
    destruct (lookup _AR_FORMS ch) as [f |]; destruct (ch =? LAM);
      cbn [fst]; (apply select_form_is_form || reflexivity).
Qed.

Lemma shape_loop_tokens (chars : list Z) (fuel : nat) :
  forall (shaped : list Z) (i : Z),
    0 <= i <= len chars ->
    len chars - i <= Z.of_nat fuel ->
    exists rest,
      shape_loop fuel chars shaped i = Ok (shaped ++ rest) /\
      Forall2 emits (tokenize (skipn (Z.to_nat i) chars)) rest.
Proof.
  assert (Hend : forall i, len chars <= i ->
                           tokenize (skipn (Z.to_nat i) chars) = []).
  { intros i Hi. rewrite skipn_all2; [reflexivity | unfold len in Hi; lia]. }
  induction fuel as [| fuel IH]; intros shaped i Hi Hfuel; cbn [shape_loop];
    destruct (Z.ltb_spec i (len chars)) as [Hlt | Hge]; try lia;
    try (exists []; rewrite app_nil_r, Hend by lia;
         split; [reflexivity | constructor]).
  destruct (shape_body_in_range chars shaped i) as [ch [Hn Hb]]; [lia |].
  pose proof (turn_advance chars i ch ltac:(lia) Hn) as Hadv.
  destruct (turn_token chars i ch ltac:(lia) Hn) as [tok [Htok Hemit]].
  rewrite Hb. cbn [bind].
  destruct (IH (shaped ++ [fst (turn chars i ch)])
              (i + snd (turn chars i ch))) as [rest [Hrest Hall]];
    [lia | lia |].
  exists (fst (turn chars i ch) :: rest). split.
  - rewrite Hrest, <- app_assoc. reflexivity.
  - rewrite Htok. constructor; assumption.
Qed.

(* ================================================================= *)
(** ** Whitespace and [strip] *)

Lemma lstrip_no_space (s : list Z) :
  Forall (fun c => isspace c = false) s -> lstrip s = s.
Proof.
  intros Hs. destruct Hs as [| c s Hc _]; [reflexivity |].
  cbn [lstrip]. rewrite Hc. reflexivity.
Qed.

Lemma strip_no_space (s : list Z) :
  Forall (fun c => isspace c = false) s -> strip s = s.
Proof.
  intros Hs. unfold strip, rstrip.
  rewrite (lstrip_no_space s Hs), lstrip_no_space.
  - apply rev_involutive.
  - apply Forall_rev. exact Hs.
Qed.

Lemma lstrip_all_space (s : list Z) :
  Forall (fun c => isspace c = true) s -> lstrip s = [].
Proof.
  induction 1 as [| c s Hc _ IH]; [reflexivity |].
  cbn [lstrip]. rewrite Hc. exact IH.
Qed.

Lemma strip_all_space (s : list Z) :
  Forall (fun c => isspace c = true) s -> strip s = [].
Proof.
  intros Hs. unfold strip. rewrite (lstrip_all_space s Hs). reflexivity.
Qed.

Lemma is_ar_of_spec (c : Z) :
  is_ar_of c = true <->
  (0x600 <= c <= 0x6FF \/ c = 0x60C \/ c = 0x61F \/ c = 0x21).
Proof.
  unfold is_ar_of, _is_arabic, str_contains, AR_PUNCT. cbn [existsb].
  rewrite !orb_true_iff, andb_true_iff, !Z.leb_le, !Z.eqb_eq.
  intuition discriminate.
Qed.

(** No Arabic-class character is Python whitespace. *)
Lemma is_ar_not_space (c : Z) : is_ar_of c = true -> isspace c = false.
Proof.
  intros Har. apply is_ar_of_spec in Har.
  apply not_true_is_false. intros Hsp. unfold isspace in Hsp.
  rewrite !orb_true_iff, !andb_true_iff, !Z.leb_le, !Z.eqb_eq in Hsp.
  lia.
Qed.

(* ================================================================= *)
(** ** The segmenter *)

Lemma fold_seg_concat (line : list Z) :
  forall st : seg_state,
    concat (map snd (segs (fold_left seg_step line st)))
      ++ cur (fold_left seg_step line st) =
    (concat (map snd (segs st)) ++ cur st) ++ line.
Proof.
  induction line as [| ch line IH]; intros st; cbn [fold_left].
  - rewrite app_nil_r. reflexivity.
  - rewrite IH. unfold seg_step.
    destruct (differs (is_ar_of ch) (cur_ar st) && negb (is_empty (cur st)));
      cbn [segs cur].
    + rewrite map_app, concat_app. cbn [map concat snd].
      rewrite app_nil_r, <- !app_assoc. reflexivity.
    + rewrite <- !app_assoc. reflexivity.
Qed.

Lemma seg_step_inv (st : seg_state) (ch : Z) :
  seg_inv st -> seg_inv (seg_step st ch).
Proof.
  intros [Hsegs Hcur]. unfold seg_step.
  destruct Hcur as [[Hnil Hnone] | [Hne [b [Htag Hall]]]]; cbn [fst snd] in *.
  - rewrite Hnil, Hnone. cbn. split; [exact Hsegs |].
    right. split; [discriminate |].
    exists (is_ar_of ch). split; [reflexivity |]. repeat constructor.
  - rewrite Htag. cbn [differs].
    assert (Hfull : is_empty (cur st) = false)
      by (destruct (cur st); [contradiction | reflexivity]).
    rewrite Hfull. cbn [negb]. rewrite andb_true_r.
    destruct (Bool.eqb (is_ar_of ch) b) eqn:Heq; cbn [negb segs cur cur_ar].
    + apply eqb_prop in Heq. split; [exact Hsegs |].
      right. split; [destruct (cur st); discriminate |].
      exists b. split; [reflexivity |]. cbn [snd].
      apply Forall_app. split; [exact Hall | repeat constructor; exact Heq].
    + split.
      * apply Forall_app. split; [exact Hsegs |].
        repeat constructor. exists b. split; [reflexivity | exact Hall].
      * right. split; [discriminate |].
        exists (is_ar_of ch). split; [reflexivity |]. repeat constructor.
Qed.

Lemma fold_seg_inv (line : list Z) :
  forall st : seg_state, seg_inv st -> seg_inv (fold_left seg_step line st).
Proof.
  induction line as [| ch line IH]; intros st Hst; cbn [fold_left].
  - exact Hst.
  - apply IH, seg_step_inv, Hst.
Qed.

Lemma segments_uniform (line : list Z) : Forall uniform (segments line).
Proof.
  unfold segments.
  destruct (fold_seg_inv line (SegState [] [] None)) as [Hsegs Hcur].
  { split; [constructor | left; split; reflexivity]. }
  destruct Hcur as [[Hnil _] | [Hne Hu]].
  - rewrite Hnil. exact Hsegs.
  - destruct (cur (fold_left seg_step line (SegState [] [] None)));
      [contradiction |].
    cbn [is_empty negb]. apply Forall_app. split; [exact Hsegs |].
    repeat constructor. exact Hu.
Qed.

(** A line with no Arabic-class character is one segment of class other. *)
Lemma fold_seg_plain (line : list Z) :
  forall buf : list Z,
    buf <> [] ->
    Forall (fun c => is_ar_of c = false) line ->
    fold_left seg_step line (SegState [] buf (Some false)) =
      SegState [] (buf ++ line) (Some false).
Proof.
  induction line as [| ch line IH]; intros buf Hbuf Hall; cbn [fold_left].
  - rewrite app_nil_r. reflexivity.
  - inversion Hall as [| c l Hch Hrest]; subst.
    assert (Hstep : seg_step (SegState [] buf (Some false)) ch =
                      SegState [] (buf ++ [ch]) (Some false)).
    { unfold seg_step. cbn [cur_ar cur segs differs]. rewrite Hch.
      reflexivity. }
    rewrite Hstep, IH; [| destruct buf; discriminate | exact Hrest].
    rewrite <- app_assoc. reflexivity.
Qed.

Lemma segments_plain (line : list Z) :
  line <> [] ->
  Forall (fun c => is_ar_of c = false) line ->
  segments line = [(Some false, line)].
Proof.
  intros Hne Hall. destruct line as [| ch line]; [contradiction |].
  inversion Hall as [| c l Hch Hrest]; subst.
  assert (Hfirst : seg_step (SegState [] [] None) ch =
                    SegState [] [ch] (Some false)).
  { unfold seg_step. cbn. rewrite Hch. reflexivity. }
  unfold segments. cbn [fold_left].
  rewrite Hfirst, fold_seg_plain; [| discriminate | exact Hrest].
  reflexivity.
Qed.

(* ================================================================= *)
(** ** The composer and the lines *)

Lemma parts_of_total (sgs : list segment) : exists ps, parts_of sgs = Ok ps.
Proof.
  induction sgs as [| [tag seg] sgs [ps IH]]; [exists []; reflexivity |].
  cbn [parts_of]. unfold part_of.
  destruct (tag_true tag).
  - destruct (shape_run_total (strip seg)) as [out Hout].
    rewrite Hout. cbn [bind]. rewrite IH. cbn [bind]. eexists; reflexivity.
  - cbn [bind]. rewrite IH. cbn [bind]. eexists; reflexivity.
Qed.

Lemma ar_line_total (line : list Z) : exists out, ar_line line = Ok out.
Proof.
  unfold ar_line. destruct (is_empty (strip line)); [eexists; reflexivity |].
  destruct (parts_of_total (segments line)) as [ps Hps].
  rewrite Hps. cbn [bind]. eexists; reflexivity.
Qed.

Lemma result_lines_total (lines : list (list Z)) :
  exists rs, result_lines lines = Ok rs.
Proof.
  induction lines as [| line lines [rs IH]]; [exists []; reflexivity |].
  cbn [result_lines].
  destruct (ar_line_total line) as [r Hr].
  rewrite Hr, IH. cbn [bind]. eexists; reflexivity.
Qed.

(** [result_lines] holds, at each position, the output of that line. *)
Lemma result_lines_nth (lines : list (list Z)) :
  forall (rs : list (list Z)) (n : nat) (line : list Z),
    result_lines lines = Ok rs ->
    nth_error lines n = Some line ->
    exists r, nth_error rs n = Some r /\ ar_line line = Ok r.
Proof.
  induction lines as [| l lines IH]; intros rs n line Hrs Hn.
  - destruct n; discriminate.
  - cbn [result_lines] in Hrs.
    destruct (ar_line l) as [r |] eqn:Hr; [| discriminate].
    destruct (result_lines lines) as [rs' |] eqn:Hrs'; [| discriminate].
    cbn [bind] in Hrs. injection Hrs as <-.
    destruct n as [| n]; cbn [nth_error] in *.
    + injection Hn as <-. exists r. split; [reflexivity | exact Hr].
    + apply (IH rs' n line eq_refl Hn).
Qed.

Lemma result_lines_same (lines : list (list Z)) :
  Forall (fun line => ar_line line = Ok line) lines ->
  result_lines lines = Ok lines.
Proof.
  induction 1 as [| line lines Hline _ IH]; [reflexivity |].
  cbn [result_lines]. rewrite Hline, IH. reflexivity.
Qed.

Lemma split_nl_not_nil (s : list Z) : split_nl s <> [].
Proof.
  destruct s as [| c s]; cbn [split_nl]; [discriminate |].
  destruct (c =? NL); [discriminate |].
  destruct (split_nl s); discriminate.
Qed.

Lemma join_nl_cons_char (c : Z) (l : list Z) (ls : list (list Z)) :
  join_nl ((c :: l) :: ls) = c :: join_nl (l :: ls).
Proof. destruct ls; reflexivity. Qed.

(** Joining the pieces of a split gives the string back. *)
Lemma join_split_nl (s : list Z) : join_nl (split_nl s) = s.
Proof.
  induction s as [| c s IH]; [reflexivity |].
  cbn [split_nl].
  destruct (Z.eqb_spec c NL) as [-> | Hc].
  - pose proof (split_nl_not_nil s) as Hne.
    destruct (split_nl s) as [| l ls]; [contradiction |].
    cbn [join_nl app]. cbn [join_nl] in IH. rewrite IH. reflexivity.
  - pose proof (split_nl_not_nil s) as Hne.
    destruct (split_nl s) as [| l ls]; [contradiction |].
    rewrite join_nl_cons_char, IH. reflexivity.
Qed.

Lemma split_nl_Forall (P : Z -> Prop) (s : list Z) :
  Forall P s -> Forall (Forall P) (split_nl s).
Proof.
  induction 1 as [| c s Hc _ IH]; [repeat constructor |].
  cbn [split_nl].
  destruct (c =? NL); [constructor; [constructor | exact IH] |].
  destruct (split_nl s) as [| l ls]; [repeat constructor; exact Hc |].
  inversion IH; subst. constructor; [constructor |]; assumption.
Qed.

Lemma ar_line_plain (line : list Z) :
  Forall (fun c => is_ar_of c = false) line ->
  line = [] \/ strip line <> [] ->
  ar_line line = Ok line.
Proof.
  intros Hall [-> | Hstrip]; [reflexivity |].
  assert (Hne : line <> []) by (intros ->; apply Hstrip; reflexivity).
  unfold ar_line.
  destruct (strip line) as [| c s]; [contradiction |]. cbn [is_empty].
  rewrite (segments_plain line Hne Hall). cbn.
  rewrite app_nil_r. reflexivity.
Qed.

(* ================================================================= *)
(** ** Reading the guards as the specification words them *)

Lemma prev_connb_spec (chars : list Z) (i : Z) :
  prev_connb chars i = true <-> prev_connects chars i.
Proof.
  unfold prev_connb, prev_connects, connects.
  destruct (Z.ltb_spec 0 i) as [Hpos | Hle].
  - destruct (nth_error chars (Z.to_nat (i - 1))) as [p |].
    + destruct (lookup _AR_FORMS p) as [f |] eqn:Hf.
      * destruct (initial f) as [x |] eqn:Hx; cbn [present]; split.
        -- intros _. split; [exact Hpos |]. exists p, f, x. auto.
        -- reflexivity.
        -- discriminate.
        -- intros [_ [p' [f' [x' [Hp [Hf' Hx']]]]]].
           injection Hp as <-. rewrite Hf in Hf'. injection Hf' as <-.
           congruence.
      * split; [discriminate |].
        intros [_ [p' [f' [x' [Hp [Hf' _]]]]]].
        injection Hp as <-. congruence.
    + split; [discriminate |].
      intros [_ [p' [f' [x' [Hp _]]]]]. discriminate.
  - split; [discriminate | intros [Hpos _]; lia].
Qed.

Lemma contains_spec {V} (d : dict V) (k : Z) :
  contains d k = true <-> exists v, lookup d k = Some v.
Proof.
  unfold contains. destruct (lookup d k) as [v |]; split.
  - intros _. exists v. reflexivity.
  - reflexivity.
  - discriminate.
  - intros [v Hv]. discriminate.
Qed.

Lemma next_joinb_spec (chars : list Z) (i : Z) :
  next_joinb chars i = true <-> next_joinable chars i.
Proof.
  unfold next_joinb, next_joinable, next_ar_of.
  destruct (nth_error chars (Z.to_nat (i + 1))) as [n |].
  - rewrite andb_true_iff, orb_true_iff, negb_true_iff, contains_spec.
    unfold _is_arabic. rewrite andb_true_iff, !Z.leb_le.
    rewrite <- not_true_iff_false, str_contains_In. unfold BREAKS. split.
    + intros [H1 H2]. exists n. auto.
    + intros [n' [Hn [H1 H2]]]. injection Hn as <-. auto.
  - split; [discriminate | intros [n [Hn _]]; discriminate].
Qed.

Lemma select_form_priority (f : forms) (pc nj : bool) (PC NJ : Prop) :
  (pc = true <-> PC) ->
  (nj = true <-> NJ) ->
  priority_choice f PC NJ (select_form f pc nj).
Proof.
  intros Hpc Hnj.
  assert (Hp : if pc then PC else ~ PC)
    by (destruct pc; [apply Hpc; reflexivity
                     | intros H; apply Hpc in H; discriminate]).
  assert (Hn : if nj then NJ else ~ NJ)
    by (destruct nj; [apply Hnj; reflexivity
                     | intros H; apply Hnj in H; discriminate]).
  clear Hpc Hnj.
  unfold priority_choice, medial_applies, final_applies, initial_applies,
    can_be_initial, slot_present.
  destruct f as [iso [fi |] [ini |] [me |]]; destruct pc, nj;
    cbn [select_form and_slot andb present isolated final initial medial];
    intuition congruence.
Qed.

Lemma lig_here_spec (chars : list Z) (i ch : Z) :
  nth_error chars (Z.to_nat i) = Some ch ->
  present (lig_here chars i ch) = true <-> starts_lam_alef chars i.
Proof.
  intros Hch. unfold lig_here, starts_lam_alef. rewrite Hch.
  destruct (Z.eqb_spec ch LAM) as [-> | Hne].
  - destruct (nth_error chars (Z.to_nat (i + 1))) as [a |].
    + rewrite lam_alef_present, str_contains_In. split.
      * intros Hin. split; [reflexivity |]. exists a. auto.
      * intros [_ [a' [Ha Hin]]]. injection Ha as <-. exact Hin.
    + split; [discriminate |]. intros [_ [a' [Ha _]]]. discriminate.
  - split; [discriminate |]. intros [Heq _]. congruence.
Qed.

Lemma turn_two (chars : list Z) (i ch : Z) :
  snd (turn chars i ch) = 2 -> present (lig_here chars i ch) = true.
Proof.
  unfold turn.
  destruct (lookup _AR_FORMS ch); [| discriminate].
  destruct (lig_here chars i ch); [reflexivity | discriminate].
Qed.

Lemma turn_lig (chars : list Z) (i : Z) (la : Z * Z) :
  lig_here chars i LAM = Some la ->
  turn chars i LAM = (if prev_connb chars i then snd la else fst la, 2).
Proof.
  intros Hlig. unfold turn. rewrite lookup_LAM, Hlig. reflexivity.
Qed.

Lemma scan_step (chars shaped : list Z) (i ch : Z) :
  scan chars shaped i ->
  nth_error chars (Z.to_nat i) = Some ch ->
  scan chars (shaped ++ [fst (turn chars i ch)]) (i + snd (turn chars i ch)).
Proof.
  intros Hscan Hch.
  pose proof (scan_range _ _ _ Hscan) as Hr.
  apply (scan_turn chars shaped i).
  - exact Hscan.
  - apply (nth_error_in_range chars i ch); [lia | exact Hch].
  - apply shape_body_turn; [lia | exact Hch].
Qed.

(** The scan stops at every position except the alef a lam has taken
    with it. *)
Lemma scan_reaches (chars : list Z) :
  forall n : nat,
    (n <= length chars)%nat ->
    (exists shaped, scan chars shaped (Z.of_nat n)) \/
    (exists shaped m la,
        n = S m /\ scan chars shaped (Z.of_nat m) /\
        nth_error chars m = Some LAM /\
        lig_here chars (Z.of_nat m) LAM = Some la).
Proof.
  induction n as [| n IH]; intros Hn.
  - left. exists []. constructor.
  - destruct IH as [[shaped Hscan] | [shaped [m [la [-> [Hscan [Hlam Hlig]]]]]]];
      [lia | |].
    + destruct (nth_error chars n) as [ch |] eqn:Hch;
        [| apply nth_error_None in Hch; lia].
      assert (Hch' : nth_error chars (Z.to_nat (Z.of_nat n)) = Some ch)
        by (rewrite Nat2Z.id; exact Hch).
      pose proof (scan_step _ _ _ _ Hscan Hch') as Hnext.
      pose proof (turn_advance chars (Z.of_nat n) ch ltac:(lia) Hch') as Hadv.
      destruct (Z.eq_dec (snd (turn chars (Z.of_nat n) ch)) 1) as [H1 | H1].
      * left. eexists. rewrite H1 in Hnext.
        replace (Z.of_nat (S n)) with (Z.of_nat n + 1) by lia. exact Hnext.
      * assert (H2 : snd (turn chars (Z.of_nat n) ch) = 2) by lia.
        pose proof (turn_two _ _ _ H2) as Hp.
        unfold lig_here in Hp.
        destruct (Z.eqb_spec ch LAM) as [-> | Hne]; [| discriminate].
        destruct (lig_here chars (Z.of_nat n) LAM) as [la |] eqn:Hlig.
        -- right. exists shaped, n, la. auto.
        -- unfold lig_here in Hlig. rewrite Z.eqb_refl in Hlig.
           destruct (nth_error chars (Z.to_nat (Z.of_nat n + 1)));
             [| discriminate].
           rewrite Hlig in Hp. discriminate.
    + left.
      assert (Hlam' : nth_error chars (Z.to_nat (Z.of_nat m)) = Some LAM)
        by (rewrite Nat2Z.id; exact Hlam).
      pose proof (scan_step _ _ _ _ Hscan Hlam') as Hnext.
      rewrite (turn_lig _ _ _ Hlig) in Hnext. cbn [fst snd] in Hnext.
      eexists.
      replace (Z.of_nat (S (S m))) with (Z.of_nat m + 2) by lia.
      exact Hnext.
Qed.

(** The state of the scan before the last turn. *)
Lemma scan_last_turn (chars shaped : list Z) (i : Z) :
  scan chars shaped i ->
  (shaped = [] /\ i = 0) \/
  exists shaped0 j cj,
    scan chars shaped0 j /\
    nth_error chars (Z.to_nat j) = Some cj /\
    shaped = shaped0 ++ [fst (turn chars j cj)] /\
    i = j + snd (turn chars j cj).
Proof.
  intros Hscan. destruct Hscan as [| shaped0 j shaped i Hprev Hlt Hbody].
  - left. split; reflexivity.
  - right. pose proof (scan_range _ _ _ Hprev) as Hr.
    destruct (shape_body_in_range chars shaped0 j) as [cj [Hn Hb]]; [lia |].
    rewrite Hb in Hbody. injection Hbody as <- <-.
    exists shaped0, j, cj. auto.
Qed.

Lemma lstrip_keeps (c : Z) (s : list Z) :
  In c s -> isspace c = false -> In c (lstrip s).
Proof.
  intros Hin Hc. induction s as [| x s IH]; [contradiction |].
  cbn [lstrip]. destruct (isspace x) eqn:Hx; [| exact Hin].
  destruct Hin as [-> | Hin]; [congruence | apply IH, Hin].
Qed.

Lemma strip_not_blank (line : list Z) :
  not_blank line -> line = [] \/ strip line <> [].
Proof.
  intros [-> | [c [Hin Hc]]]; [left; reflexivity | right].
  assert (Hs : In c (strip line)).
  { unfold strip, rstrip. apply in_rev. rewrite rev_involutive.
    apply lstrip_keeps; [| exact Hc]. apply in_rev. rewrite rev_involutive.
    apply lstrip_keeps; assumption. }
  intros Hnil. rewrite Hnil in Hs. contradiction.
Qed.

Lemma no_arabic_class (text : list Z) :
  no_arabic text -> Forall (fun c => is_ar_of c = false) text.
Proof.
  intros Hno. apply Forall_forall. intros c Hin.
  apply not_true_is_false. intros Har. apply is_ar_of_spec in Har.
  specialize (Hno c Hin). lia.
Qed.

(* ================================================================= *)
(** ** The specification's small examples, by evaluation *)

(** A letter on its own takes its isolated form. *)
Example beh_alone : _shape_run [0x628] = Ok [0xFE8F].
Proof. reflexivity. Qed.

(** Two letters that join: initial beh, final meem. *)
Example beh_meem : _shape_run [0x628; 0x645] = Ok [0xFE91; 0xFEE2].
Proof. reflexivity. Qed.

(** Reh does not join forward: the hah after it starts afresh. *)
Example reh_hah : _shape_run [0x631; 0x62D] = Ok [0xFEAD; 0xFEA1].
Proof. reflexivity. Qed.

(** A digit has no table entry and passes through. *)
Example digit_passes : _shape_run [0x661; 0x628] = Ok [0x661; 0xFE8F].
Proof. reflexivity. Qed.

(** The empty string is returned as it is. *)
Example ar_empty : ar [] = Ok [].
Proof. reflexivity. Qed.

(* ================================================================= *)
(** * Properties stated by the specification *)

(** ** Shaper *)

(** Whenever the scan of [_shape_run] stands at a character that has a
    form-table entry and does not start a lam+alef ligature, the code point
    it appends is chosen by the priority medial, final, initial, isolated
    over [prev_connects] and [next_joinable] as the specification defines
    them; the scan advances by one and the code point is the next one of
    the result of [_shape_run]. *)
Lemma scan_form_priority :
  forall (chars shaped : list Z) (i ch : Z) (f : forms),
    scan chars shaped i ->
    nth_error chars (Z.to_nat i) = Some ch ->
    lookup _AR_FORMS ch = Some f ->
    ~ starts_lam_alef chars i ->
    exists o,
      priority_choice f (prev_connects chars i) (next_joinable chars i) o /\
      shape_body chars shaped i = Ok (shaped ++ [o], i + 1) /\
      exists rest, _shape_run chars = Ok (shaped ++ o :: rest).
Proof.
  intros chars shaped i ch f Hscan Hch Hf Hnolig.
  pose proof (scan_range _ _ _ Hscan) as Hr.
  assert (Hlig : lig_here chars i ch = None).
  { destruct (lig_here chars i ch) eqn:Hl; [| reflexivity].
    exfalso. apply Hnolig. apply (lig_here_spec chars i ch Hch).
    rewrite Hl. reflexivity. }
  assert (Hturn : turn chars i ch =
                  (select_form f (prev_connb chars i) (next_joinb chars i), 1)).
  { unfold turn. rewrite Hf, Hlig. reflexivity. }
  pose proof (scan_step _ _ _ _ Hscan Hch) as Hnext.
  pose proof (shape_body_turn chars shaped i ch ltac:(lia) Hch) as Hbody.
  rewrite Hturn in Hnext, Hbody. cbn [fst snd] in Hnext, Hbody.
  exists (select_form f (prev_connb chars i) (next_joinb chars i)).
  split; [| split].
  - apply select_form_priority; [apply prev_connb_spec | apply next_joinb_spec].
  - exact Hbody.
  - destruct (scan_output _ _ _ Hnext) as [rest Hrest].
    exists rest. rewrite Hrest, <- app_assoc. reflexivity.
Qed.

(** C1, as stated, fails at the alef that a lam takes with it: in lam,
    alef the character at position 1 has a table entry and does not start
    a lam+alef ligature, and the priority rule names its final form
    U+FE8E; but the scan never stands at position 1, and the result of
    [_shape_run] is the ligature U+FEFB alone. *)
Lemma consumed_alef_not_shaped :
  nth_error [LAM; 0x627] (Z.to_nat 1) = Some 0x627 /\
  lookup _AR_FORMS 0x627 = Some (F2 0xFE8D 0xFE8E) /\
  ~ starts_lam_alef [LAM; 0x627] 1 /\
  priority_choice (F2 0xFE8D 0xFE8E)
    (prev_connects [LAM; 0x627] 1) (next_joinable [LAM; 0x627] 1) 0xFE8E /\
  _shape_run [LAM; 0x627] = Ok [0xFEFB] /\
  ~ In 0xFE8E [0xFEFB] /\
  ~ (exists shaped, scan [LAM; 0x627] shaped 1).
Proof.
  split; [reflexivity |]. split; [reflexivity |].
  split; [intros [Hlam _]; discriminate Hlam |].
  split.
  { right. left. split; [| split].
    - intros [_ [_ [_ Hm]]]. apply Hm. reflexivity.
    - split; [| discriminate].
      split; [lia |].
      exists LAM, (F4 0xFEDD 0xFEDE 0xFEDF 0xFEE0), 0xFEDF.
      repeat split.
    - reflexivity. }
  split; [reflexivity |].
  split; [intros [H | []]; discriminate H |].
  intros [shaped Hscan].
  destruct (scan_last_turn _ _ _ Hscan) as
      [[_ H0] | [shaped0 [j [cj [Hprev [Hcj [_ Hi]]]]]]]; [discriminate H0 |].
  pose proof (scan_range _ _ _ Hprev) as Hr.
  pose proof (turn_advance _ j cj ltac:(lia) Hcj) as Hadv.
  assert (Hj : j = 0) by lia. subst j.
  cbn in Hcj. injection Hcj as <-.
  vm_compute in Hi. discriminate Hi.
Qed.

(** C1, amended. For every character of a run that has a form-table entry,
    does not start a lam+alef ligature and is not the alef taken by the
    lam before it, the scan of [_shape_run] stands at it, and the code
    point it appends is chosen by the priority medial, final, initial,
    isolated over [prev_connects] and [next_joinable] as the specification
    defines them; the scan advances by one and the code point is the next
    one of the result of [_shape_run]. *)
Theorem shape_run_form_priority :
  forall (chars : list Z) (i ch : Z) (f : forms),
    0 <= i ->
    nth_error chars (Z.to_nat i) = Some ch ->
    lookup _AR_FORMS ch = Some f ->
    ~ starts_lam_alef chars i ->
    ~ taken_by_lam chars i ->
    exists shaped o rest,
      scan chars shaped i /\
      priority_choice f (prev_connects chars i) (next_joinable chars i) o /\
      shape_body chars shaped i = Ok (shaped ++ [o], i + 1) /\
      _shape_run chars = Ok (shaped ++ o :: rest).
Proof.
  intros chars i ch f Hi Hch Hf Hnolig Hfree.
  assert (Hscan : exists shaped, scan chars shaped i).
  { destruct (scan_reaches chars (Z.to_nat i)) as
        [[shaped Hs] | [shaped [m [la [Hm [_ [Hlam Hl]]]]]]].
    - pose proof (nth_error_in_range chars i ch Hi Hch).
      unfold len in *. lia.
    - exists shaped. rewrite Z2Nat.id in Hs by lia. exact Hs.
    - exfalso. apply Hfree. split; [lia |].
      assert (Hm' : Z.of_nat m = i - 1) by lia. rewrite Hm' in Hl.
      assert (Hlam' : nth_error chars (Z.to_nat (i - 1)) = Some LAM)
        by (rewrite <- Hm', Nat2Z.id; exact Hlam).
      apply (lig_here_spec chars (i - 1) LAM Hlam').
      rewrite Hl. reflexivity. }
  destruct Hscan as [shaped Hscan].
  destruct (scan_form_priority chars shaped i ch f Hscan Hch Hf Hnolig)
    as [o [Hprio [Hbody [rest Hrest]]]].
  exists shaped, o, rest. auto.
Qed.

(** The second beh of beh, beh, beh: both neighbours join, the medial form
    U+FE92 is chosen. *)
Lemma shape_run_form_priority_witness :
  exists shaped o rest,
    scan [0x628; 0x628; 0x628] shaped 1 /\
    priority_choice (F4 0xFE8F 0xFE90 0xFE91 0xFE92)
      (prev_connects [0x628; 0x628; 0x628] 1)
      (next_joinable [0x628; 0x628; 0x628] 1) o /\
    shape_body [0x628; 0x628; 0x628] shaped 1 = Ok (shaped ++ [o], 1 + 1) /\
    _shape_run [0x628; 0x628; 0x628] = Ok (shaped ++ o :: rest).
Proof.
  apply (shape_run_form_priority [0x628; 0x628; 0x628] 1 0x628).
  - lia.
  - reflexivity.
  - reflexivity.
  - intros [Hlam _]. discriminate Hlam.
  - intros [_ [Hlam _]]. discriminate Hlam.
Defined.

(** C2. In every run, where the character at position [i] is lam and the
    next one is one of the four alef variants, the scan stops at [i],
    appends exactly one code point for the pair, the final ligature when
    the previous character joins forward and the isolated ligature
    otherwise, and steps over both characters; lam then alef on their own
    shape to U+FEFB alone. *)
Theorem shape_run_lam_alef :
  (forall (chars : list Z) (i : Z),
      0 <= i ->
      starts_lam_alef chars i ->
      exists a iso fin shaped lig rest,
        nth_error chars (Z.to_nat (i + 1)) = Some a /\
        lookup _LAM_ALEF a = Some (iso, fin) /\
        ((prev_connects chars i /\ lig = fin) \/
         (~ prev_connects chars i /\ lig = iso)) /\
        scan chars shaped i /\
        shape_body chars shaped i = Ok (shaped ++ [lig], i + 2) /\
        _shape_run chars = Ok (shaped ++ lig :: rest))
  /\ _shape_run [LAM; 0x627] = Ok [0xFEFB].
Proof.
  split; [| reflexivity].
  intros chars i Hi [Hlam [a [Ha Hin]]].
  assert (Hla : exists iso fin, lookup _LAM_ALEF a = Some (iso, fin)).
  { apply str_contains_In in Hin. rewrite <- lam_alef_present in Hin.
    destruct (lookup _LAM_ALEF a) as [[iso fin] |]; [| discriminate].
    exists iso, fin. reflexivity. }
  destruct Hla as [iso [fin Hla]].
  assert (Hlig : lig_here chars i LAM = Some (iso, fin)).
  { unfold lig_here. rewrite Z.eqb_refl, Ha. exact Hla. }
  assert (Hscan : exists shaped, scan chars shaped i).
  { destruct (scan_reaches chars (Z.to_nat i)) as
        [[shaped Hs] | [shaped [m [la [Hm [_ [_ Hl]]]]]]].
    - pose proof (nth_error_in_range chars i LAM Hi Hlam).
      unfold len in *. lia.
    - exists shaped. rewrite Z2Nat.id in Hs by lia. exact Hs.
    - exfalso. unfold lig_here in Hl. rewrite Z.eqb_refl in Hl.
      replace (Z.to_nat (Z.of_nat m + 1)) with (Z.to_nat i) in Hl by lia.
      rewrite Hlam in Hl. discriminate Hl. }
  destruct Hscan as [shaped Hscan].
  pose proof (scan_step _ _ _ _ Hscan Hlam) as Hnext.
  pose proof (shape_body_turn chars shaped i LAM Hi Hlam) as Hbody.
  rewrite (turn_lig _ _ _ Hlig) in Hnext, Hbody. cbn [fst snd] in Hnext, Hbody.
  destruct (scan_output _ _ _ Hnext) as [rest Hrest].
  exists a, iso, fin, shaped, (if prev_connb chars i then fin else iso), rest.
  repeat split; try assumption.
  - destruct (prev_connb chars i) eqn:Hpc.
    + left. split; [apply prev_connb_spec; exact Hpc | reflexivity].
    + right. split; [| reflexivity].
      intros H. apply prev_connb_spec in H. congruence.
  - rewrite Hrest, <- app_assoc. reflexivity.
Qed.

(** Beh, lam, alef: the pair at position 1 follows a joining letter and
    becomes the final ligature U+FEFC. *)
Lemma shape_run_lam_alef_witness :
  exists a iso fin shaped lig rest,
    nth_error [0x628; LAM; 0x627] (Z.to_nat (1 + 1)) = Some a /\
    lookup _LAM_ALEF a = Some (iso, fin) /\
    ((prev_connects [0x628; LAM; 0x627] 1 /\ lig = fin) \/
     (~ prev_connects [0x628; LAM; 0x627] 1 /\ lig = iso)) /\
    scan [0x628; LAM; 0x627] shaped 1 /\
    shape_body [0x628; LAM; 0x627] shaped 1 = Ok (shaped ++ [lig], 1 + 2) /\
    _shape_run [0x628; LAM; 0x627] = Ok (shaped ++ lig :: rest).
Proof.
  apply (proj1 shape_run_lam_alef [0x628; LAM; 0x627] 1).
  - lia.
  - split; [reflexivity |]. exists 0x627. split; [reflexivity |].
    cbn. auto.
Defined.

(** C7. [_shape_run] returns, for every run, one code point per unit it
    consumes: the units are the characters of the run in order, a lam
    immediately followed by one of the four alef variants counting as one
    unit; a single character stays itself or becomes one of its own forms,
    a pair becomes a ligature of its alef; so the output is as long as the
    input less the number of lam+alef pairs. *)
Theorem shape_run_one_per_unit :
  forall chars : list Z,
    exists out,
      _shape_run chars = Ok out /\
      concat (map token_chars (tokenize chars)) = chars /\
      Forall2 emits (tokenize chars) out /\
      (length out + lam_alef_pairs chars = length chars)%nat /\
      (length out <= length chars)%nat.
Proof.
  intros chars.
  destruct (shape_loop_tokens chars (length chars) [] 0) as [out [Hout Hall]].
  { pose proof (len_nonneg chars). lia. }
  { unfold len. lia. }
  cbn [app Z.to_nat skipn] in Hout, Hall.
  exists out. split; [exact Hout |].
  split; [apply tokenize_chars |].
  split; [exact Hall |].
  pose proof (Forall2_length Hall) as Hlen.
  pose proof (tokenize_length chars). lia.
Qed.

(** C8. [_shape_run] and [ar] return a value on every input: no index or
    table access raises and the loop ends within its fuel. *)
Theorem ar_total :
  (forall chars : list Z, exists out, _shape_run chars = Ok out) /\
  (forall text : list Z, exists out, ar text = Ok out).
Proof.
  split; [exact shape_run_total |].
  intros text. unfold ar.
  destruct (is_empty text); [eexists; reflexivity |].
  destruct (result_lines_total (split_nl text)) as [rs Hrs].
  rewrite Hrs. cbn [bind]. eexists; reflexivity.
Qed.

(** ** Segmenter *)

(** C3. The texts of the segments of a line, joined in order, are the line
    itself. *)
Theorem segments_round_trip :
  forall line : list Z, concat (map snd (segments line)) = line.
Proof.
  intros line. unfold segments.
  pose proof (fold_seg_concat line (SegState [] [] None)) as H.
  cbn [segs cur map concat app] in H.
  destruct (cur (fold_left seg_step line (SegState [] [] None))) as [| c buf];
    cbn [is_empty negb].
  - rewrite app_nil_r in H. exact H.
  - rewrite map_app, concat_app. cbn [map concat snd].
    rewrite app_nil_r. exact H.
Qed.

(** C10. A segment tagged Arabic holds Arabic-class characters only, none
    of which is whitespace, so [strip] returns it unchanged and the composer
    shapes the whole segment. *)
Theorem arabic_segment_strip_unchanged :
  forall (line : list Z) (tag : option bool) (seg : list Z),
    In (tag, seg) (segments line) ->
    tag_true tag = true ->
    Forall (fun c => is_ar_of c = true /\ isspace c = false) seg /\
    strip seg = seg /\
    part_of (tag, seg) = (shaped <- _shape_run seg ;; Ok (Dar, rev shaped)).
Proof.
  intros line tag seg Hin Htag.
  pose proof (segments_uniform line) as Hu.
  rewrite Forall_forall in Hu.
  destruct (Hu _ Hin) as [b [Hb Hall]]. cbn [fst snd] in Hb, Hall.
  subst tag. destruct b; [| discriminate].
  assert (Hns : Forall (fun c => isspace c = false) seg).
  { eapply Forall_impl; [| exact Hall]. exact is_ar_not_space. }
  split; [| split].
  - eapply Forall_impl; [| exact Hall].
    intros c Hc. split; [exact Hc | apply is_ar_not_space, Hc].
  - apply strip_no_space, Hns.
  - unfold part_of. cbn [tag_true]. rewrite (strip_no_space seg Hns).
    reflexivity.
Qed.

(** In [MARHABA_HELLO] the first segment is the Arabic word. *)
Lemma arabic_segment_strip_unchanged_witness :
  Forall (fun c => is_ar_of c = true /\ isspace c = false) MARHABA /\
  strip MARHABA = MARHABA /\
  part_of (Some true, MARHABA) =
    (shaped <- _shape_run MARHABA ;; Ok (Dar, rev shaped)).
Proof.
  apply (arabic_segment_strip_unchanged MARHABA_HELLO (Some true) MARHABA).
  - left. reflexivity.
  - reflexivity.
Defined.

(** ** Composer and lines *)

(** C5. A line of the input that is empty or all whitespace gives the
    empty string at its place in [result_lines], without being segmented;
    [ar] joins these lines. *)
Theorem blank_line_gives_empty :
  forall (text : list Z) (n : nat) (line : list Z),
    nth_error (split_nl text) n = Some line ->
    Forall (fun c => isspace c = true) line ->
    ar_line line = Ok [] /\
    exists rs,
      result_lines (split_nl text) = Ok rs /\
      nth_error rs n = Some [] /\
      (text <> [] -> ar text = Ok (join_nl rs)).
Proof.
  intros text n line Hn Hblank.
  assert (Hline : ar_line line = Ok []).
  { unfold ar_line. rewrite (strip_all_space line Hblank). reflexivity. }
  split; [exact Hline |].
  destruct (result_lines_total (split_nl text)) as [rs Hrs].
  exists rs. split; [exact Hrs |]. split.
  - destruct (result_lines_nth _ _ _ _ Hrs Hn) as [r [Hr Hout]].
    rewrite Hline in Hout. injection Hout as <-. exact Hr.
  - intros Hne. unfold ar.
    destruct text; [contradiction |]. cbn [is_empty].
    rewrite Hrs. reflexivity.
Qed.

(** The middle line of [A], line feed, space, tab, line feed, [B]. *)
Lemma blank_line_gives_empty_witness :
  ar_line [0x20; 0x09] = Ok [] /\
  exists rs,
    result_lines (split_nl [0x41; 0x0A; 0x20; 0x09; 0x0A; 0x42]) = Ok rs /\
    nth_error rs 1 = Some [] /\
    ([0x41; 0x0A; 0x20; 0x09; 0x0A; 0x42] <> [] ->
     ar [0x41; 0x0A; 0x20; 0x09; 0x0A; 0x42] = Ok (join_nl rs)).
Proof.
  apply (blank_line_gives_empty [0x41; 0x0A; 0x20; 0x09; 0x0A; 0x42] 1
           [0x20; 0x09]).
  - reflexivity.
  - repeat constructor.
Defined.

(** C4, as stated, fails on a string of one space: it holds no Arabic-class
    character, and [ar] returns the empty string. *)
Lemma ar_blank_not_unchanged :
  no_arabic [0x20] /\ ar [0x20] = Ok [] /\ ar [0x20] <> Ok [0x20].
Proof.
  split; [| split].
  - intros c [<- | []]. lia.
  - reflexivity.
  - discriminate.
Qed.

(** C4, amended. A text with no Arabic-class character, each of whose
    lines is empty or holds a character that is not whitespace, is returned
    unchanged by [ar]. *)
Theorem ar_plain_unchanged :
  forall text : list Z,
    no_arabic text ->
    Forall not_blank (split_nl text) ->
    ar text = Ok text.
Proof.
  intros text Hno Hlines. unfold ar.
  destruct (is_empty text); [reflexivity |].
  rewrite (result_lines_same (split_nl text)).
  - cbn [bind]. rewrite join_split_nl. reflexivity.
  - pose proof (split_nl_Forall _ _ (no_arabic_class text Hno)) as Hplain.
    rewrite Forall_forall in *. intros line Hin.
    apply ar_line_plain; [apply Hplain, Hin |].
    apply strip_not_blank, Hlines, Hin.
Qed.

(** [A], space, line feed, line feed, [b]: three lines, the middle one
    empty. *)
Lemma ar_plain_unchanged_witness :
  ar [0x41; 0x20; 0x0A; 0x0A; 0x62] = Ok [0x41; 0x20; 0x0A; 0x0A; 0x62].
Proof.
  apply (ar_plain_unchanged [0x41; 0x20; 0x0A; 0x0A; 0x62]).
  - intros c Hin. cbn in Hin. lia.
  - change (Forall not_blank [[0x41; 0x20]; []; [0x62]]).
    apply Forall_cons; [| apply Forall_cons; [| apply Forall_cons]].
    + right. exists 0x41. split; [left; reflexivity | reflexivity].
    + left. reflexivity.
    + right. exists 0x62. split; [left; reflexivity | reflexivity].
    + apply Forall_nil.
Defined.

(** C6, as stated, fails: the second segment of [MARHABA_HELLO] is not
    [HELLO], and the output does not begin with [HELLO]. *)
Lemma marhaba_hello_not_two_words :
  segments MARHABA_HELLO <> [(Some true, MARHABA); (Some false, HELLO)] /\
  ar MARHABA_HELLO <> Ok (HELLO ++ rev MARHABA_SHAPED).
Proof. split; discriminate. Qed.

(** C6, amended. [MARHABA_HELLO] has two segments, the Arabic word and the
    other-class run made of the space and [HELLO]; the Arabic word is
    shaped and reversed, the other run kept; the output is the other run
    followed by the reversed shaped word. *)
Theorem marhaba_hello_scenario :
  segments MARHABA_HELLO =
    [(Some true, MARHABA); (Some false, 0x20 :: HELLO)] /\
  _shape_run MARHABA = Ok MARHABA_SHAPED /\
  parts_of (segments MARHABA_HELLO) =
    Ok [(Dar, rev MARHABA_SHAPED); (Dltr, 0x20 :: HELLO)] /\
  ar MARHABA_HELLO = Ok ((0x20 :: HELLO) ++ rev MARHABA_SHAPED).
Proof. repeat split. Qed.

(** C9. [ar] is not idempotent: on the Arabic word followed by an
    exclamation mark, a second application changes the result of the
    first. *)
Theorem ar_not_idempotent :
  exists x y z : list Z, ar x = Ok y /\ ar y = Ok z /\ z <> y.
Proof.
  exists (MARHABA ++ [0x21]),
         (0x21 :: rev MARHABA_SHAPED),
         (rev MARHABA_SHAPED ++ [0x21]).
  repeat split. discriminate.
Qed.

(* ================================================================= *)
(** * Further properties of the code *)

(** ** Facts about the two tables *)

Lemma lookup_forallb {V} (p : Z * V -> bool) (d : dict V) (k : Z) (v : V) :
  forallb p d = true -> lookup d k = Some v -> p (k, v) = true.
Proof.
  induction d as [| [k' v'] d IH]; cbn [forallb lookup]; [discriminate |].
  intros Hall Hk. apply andb_true_iff in Hall. destruct Hall as [Hp Hd].
  destruct (Z.eqb_spec k k') as [-> | _].
  - injection Hk as <-. exact Hp.
  - apply IH; assumption.
Qed.

Lemma form_code_spec (o : Z) : form_code o = true <-> 0xFE80 <= o <= 0xFEF4.
Proof. unfold form_code. rewrite andb_true_iff, !Z.leb_le. reflexivity. Qed.

Lemma ligature_code_spec (o : Z) :
  ligature_code o = true <-> 0xFEF5 <= o <= 0xFEFC.
Proof. unfold ligature_code. rewrite andb_true_iff, !Z.leb_le. reflexivity. Qed.

Lemma row_key_range (c : Z) (f : forms) :
  lookup _AR_FORMS c = Some f -> 0x621 <= c <= 0x64A.
Proof.
  intros Hf.
  pose proof (lookup_forallb row_in_range _AR_FORMS c f eq_refl Hf) as H.
  unfold row_in_range in H.
  rewrite !andb_true_iff, !Z.leb_le in H. lia.
Qed.

Lemma row_forms_range (c : Z) (f : forms) (o : Z) :
  lookup _AR_FORMS c = Some f ->
  o = isolated f \/ final f = Some o \/ initial f = Some o \/ medial f = Some o ->
  0xFE80 <= o <= 0xFEF4.
Proof.
  intros Hf Ho.
  pose proof (lookup_forallb row_in_range _AR_FORMS c f eq_refl Hf) as H.
  unfold row_in_range in H. rewrite !andb_true_iff in H.
  destruct H as [[[[[_ _] Hi] Hfi] Hin] Hme].
  apply form_code_spec.
  destruct Ho as [-> | [Ho | [Ho | Ho]]]; [exact Hi | | |];
    rewrite Ho in *; assumption.
Qed.

Lemma row_initial_medial (c : Z) (f : forms) :
  lookup _AR_FORMS c = Some f ->
  present (initial f) = true ->
  present (medial f) = true /\ present (final f) = true.
Proof.
  intros Hf Hi.
  pose proof (lookup_forallb row_shape _AR_FORMS c f eq_refl Hf) as H.
  unfold row_shape in H. cbn [snd] in H.
  destruct (initial f); [| discriminate].
  destruct (medial f); [| discriminate].
  destruct (final f); [| discriminate].
  split; reflexivity.
Qed.

(** Within a row, a final or medial form is neither the isolated nor the
    initial form. *)
Lemma row_final_medial_other (c : Z) (f : forms) (o : Z) :
  lookup _AR_FORMS c = Some f ->
  final f = Some o \/ medial f = Some o ->
  o <> isolated f /\ initial f <> Some o.
Proof.
  intros Hf Ho.
  pose proof (lookup_forallb row_distinct _AR_FORMS c f eq_refl Hf) as H.
  unfold row_distinct in H. cbn [snd] in H.
  destruct f as [iso [fi |] [ini |] [me |]];
    cbn [isolated final initial medial slot_list app distinctb existsb] in *;
    rewrite ?andb_true_iff, ?negb_true_iff, ?orb_false_iff, ?Z.eqb_neq in H;
    destruct Ho as [Ho | Ho]; try discriminate;
    injection Ho as <-; split; try discriminate;
    intuition congruence.
Qed.

Lemma no_entry_above_letters (o : Z) :
  0x64A < o -> lookup _AR_FORMS o = None.
Proof.
  intros Ho. destruct (lookup _AR_FORMS o) as [f |] eqn:Hf; [| reflexivity].
  pose proof (row_key_range o f Hf). lia.
Qed.

Lemma lig_row_facts (a iso fin : Z) :
  lookup _LAM_ALEF a = Some (iso, fin) ->
  connects a = false /\
  0xFEF5 <= iso <= 0xFEFC /\ 0xFEF5 <= fin <= 0xFEFC.
Proof.
  intros Ha.
  pose proof (lookup_forallb lig_row_ok _LAM_ALEF a (iso, fin) eq_refl Ha) as H.
  unfold lig_row_ok in H.
  rewrite !andb_true_iff, negb_true_iff, !ligature_code_spec in H.
  tauto.
Qed.

(** A table letter is Arabic-class, is no break character and is not
    whitespace. *)
Lemma row_key_joinable (c : Z) (f : forms) :
  lookup _AR_FORMS c = Some f -> next_ar_of (Some c) = true.
Proof.
  intros Hf. pose proof (row_key_range c f Hf) as Hr.
  unfold next_ar_of. rewrite contains_lookup, Hf. cbn [present].
  rewrite orb_true_r. cbn [andb]. apply negb_true_iff.
  apply not_true_is_false. intros Hb. apply str_contains_In in Hb.
  unfold BREAKS in Hb. cbn [In] in Hb. lia.
Qed.

(** ** The shaper *)

Lemma Forall2_right {A B} (R : A -> B -> Prop) (P : B -> Prop)
      (l1 : list A) (l2 : list B) :
  Forall2 R l1 l2 ->
  (forall x y, In x l1 -> R x y -> P y) ->
  Forall P l2.
Proof.
  induction 1 as [| x y l1 l2 Hxy _ IH]; intros HP; constructor.
  - apply (HP x y); [left; reflexivity | exact Hxy].
  - apply IH. intros x' y' Hin. apply HP. right. exact Hin.
Qed.

Lemma token_chars_in (l : list Z) (t : token) (c : Z) :
  In t (tokenize l) -> In c (token_chars t) -> In c l.
Proof.
  intros Ht Hc. rewrite <- (tokenize_chars l).
  apply in_concat. exists (token_chars t). split; [| exact Hc].
  apply in_map. exact Ht.
Qed.

Lemma shape_run_tokens (chars : list Z) :
  exists out, _shape_run chars = Ok out /\ Forall2 emits (tokenize chars) out.
Proof.
  destruct (shape_loop_tokens chars (length chars) [] 0) as [out [Hout Hall]].
  - pose proof (len_nonneg chars). lia.
  - unfold len. lia.
  - exists out. split; assumption.
Qed.

Lemma shape_run_codes (chars : list Z) :
  exists out,
    _shape_run chars = Ok out /\
    Forall (fun o => (In o chars /\ lookup _AR_FORMS o = None) \/
                     0xFE80 <= o <= 0xFEFC) out.
Proof.
  destruct (shape_run_tokens chars) as [out [Hout Hall]].
  exists out. split; [exact Hout |].
  apply (Forall2_right _ _ _ _ Hall). intros t o Ht Hemit.
  destruct t as [c | a]; cbn [emits] in Hemit.
  - destruct (lookup _AR_FORMS c) as [f |] eqn:Hf.
    + right. pose proof (row_forms_range c f o Hf Hemit). lia.
    + left. subst o. split; [| exact Hf].
      apply (token_chars_in chars (Single c)); [exact Ht | left; reflexivity].
  - right. destruct Hemit as [[iso fin] [Hla Ho]].
    destruct (lig_row_facts a iso fin Hla) as [_ [Hi Hf]].
    cbn [fst snd] in Ho. destruct Ho as [-> | ->]; lia.
Qed.

(** X1. Every code point [_shape_run] returns is either a character of the
    run that has no table entry, or a presentation form of U+FE80..U+FEFC;
    in both cases it has no table entry: no base letter is left unshaped. *)
Theorem shape_run_leaves_no_letter :
  forall chars : list Z,
    exists out,
      _shape_run chars = Ok out /\
      Forall (fun o => lookup _AR_FORMS o = None /\
                       (In o chars \/ 0xFE80 <= o <= 0xFEFC)) out.
Proof.
  intros chars. destruct (shape_run_codes chars) as [out [Hout Hall]].
  exists out. split; [exact Hout |].
  eapply Forall_impl; [| exact Hall].
  intros o [[Hin Hno] | Hr].
  - split; [exact Hno | left; exact Hin].
  - split; [apply no_entry_above_letters; lia | right; exact Hr].
Qed.

Lemma tokenize_no_entry (chars : list Z) :
  Forall (fun c => lookup _AR_FORMS c = None) chars ->
  tokenize chars = map Single chars.
Proof.
  induction chars as [| x | x y l IHl IHc] using list_pair_ind;
    intros Hall; [reflexivity | reflexivity |].
  rewrite tokenize_cons2.
  inversion Hall as [| ? ? Hx Hrest]; subst.
  destruct (Z.eqb_spec x LAM) as [-> | _].
  - rewrite lookup_LAM in Hx. discriminate.
  - cbn [andb map]. rewrite (IHc Hrest). reflexivity.
Qed.

(** X2. A run none of whose characters has a table entry (digits,
    punctuation, diacritics) is returned as it is. *)
Theorem shape_run_passes_unknown :
  forall chars : list Z,
    Forall (fun c => lookup _AR_FORMS c = None) chars ->
    _shape_run chars = Ok chars.
Proof.
  intros chars Hall.
  destruct (shape_run_tokens chars) as [out [Hout Hem]].
  rewrite (tokenize_no_entry chars Hall) in Hem.
  rewrite Hout. f_equal.
  clear Hout. revert out Hem.
  induction Hall as [| c l Hc _ IH]; intros out Hem; cbn [map] in Hem;
    inversion Hem as [| ? o ? out' Ho Hrest]; subst; [reflexivity |].
  cbn [emits] in Ho. rewrite Hc in Ho. subst o.
  f_equal. apply IH. exact Hrest.
Qed.

(** Arabic-Indic digits one and two, then an exclamation mark. *)
Lemma shape_run_passes_unknown_witness :
  _shape_run [0x661; 0x662; 0x21] = Ok [0x661; 0x662; 0x21].
Proof.
  apply (shape_run_passes_unknown [0x661; 0x662; 0x21]).
  repeat constructor.
Defined.

Lemma select_form_joined (c : Z) (f : forms) (pc nj : bool) :
  lookup _AR_FORMS c = Some f ->
  final f = Some (select_form f pc nj) \/
  medial f = Some (select_form f pc nj) ->
  pc = true.
Proof.
  intros Hf Ho. destruct pc; [reflexivity | exfalso].
  destruct (row_final_medial_other c f _ Hf Ho) as [Hiso Hini].
  unfold select_form in Hiso, Hini. cbn [andb and_slot] in Hiso, Hini.
  destruct (and_slot (nj && present (initial f)) (initial f)) as [x |] eqn:Hx.
  - apply Hini. unfold and_slot in Hx.
    destruct (nj && present (initial f)); [exact Hx | discriminate].
  - apply Hiso. reflexivity.
Qed.

Lemma select_form_joining (c : Z) (f : forms) (pc : bool) :
  lookup _AR_FORMS c = Some f ->
  present (initial f) = true ->
  initial f = Some (select_form f pc true) \/
  medial f = Some (select_form f pc true).
Proof.
  intros Hf Hi.
  destruct (row_initial_medial c f Hf Hi) as [Hm _].
  unfold select_form. rewrite Hi.
  destruct (initial f) as [ini |]; [| discriminate].
  destruct (medial f) as [me |]; [| discriminate].
  destruct pc; cbn [andb and_slot].
  - right. reflexivity.
  - destruct (final f); left; reflexivity.
Qed.

(** X3. Joins are drawn from both sides: when the scan appends the final
    or medial form of a letter, the code point it appended just before is
    the initial or medial form of the previous character. *)
Theorem joined_form_follows_joining_form :
  forall (chars shaped : list Z) (i ch : Z) (f : forms) (o : Z),
    scan chars shaped i ->
    nth_error chars (Z.to_nat i) = Some ch ->
    lookup _AR_FORMS ch = Some f ->
    ~ starts_lam_alef chars i ->
    shape_body chars shaped i = Ok (shaped ++ [o], i + 1) ->
    final f = Some o \/ medial f = Some o ->
    exists shaped0 p fp op,
      0 < i /\
      shaped = shaped0 ++ [op] /\
      nth_error chars (Z.to_nat (i - 1)) = Some p /\
      lookup _AR_FORMS p = Some fp /\
      (initial fp = Some op \/ medial fp = Some op).
Proof.
  intros chars shaped i ch f o Hscan Hch Hf Hnolig Hbody Ho.
  pose proof (scan_range _ _ _ Hscan) as Hr.
  assert (Hlig : lig_here chars i ch = None).
  { destruct (lig_here chars i ch) eqn:Hl; [| reflexivity].
    exfalso. apply Hnolig. apply (lig_here_spec chars i ch Hch).
    rewrite Hl. reflexivity. }
  rewrite (shape_body_turn chars shaped i ch ltac:(lia) Hch) in Hbody.
  unfold turn in Hbody. rewrite Hf, Hlig in Hbody. cbn [fst snd] in Hbody.
  injection Hbody as Hbody. apply app_inj_tail in Hbody.
  destruct Hbody as [_ Hsel]. subst o.
  pose proof (select_form_joined ch f _ _ Hf Ho) as Hpc.
  unfold prev_connb in Hpc.
  destruct (Z.ltb_spec 0 i) as [Hpos | _]; [| discriminate].
  destruct (nth_error chars (Z.to_nat (i - 1))) as [p |] eqn:Hp;
    [| discriminate].
  unfold connects in Hpc.
  destruct (lookup _AR_FORMS p) as [fp |] eqn:Hfp; [| discriminate].
  destruct (scan_last_turn _ _ _ Hscan) as
      [[_ Hzero] | [shaped0 [j [cj [Hprev [Hcj [Hshaped Hi]]]]]]]; [lia |].
  pose proof (scan_range _ _ _ Hprev) as Hrj.
  pose proof (turn_advance chars j cj ltac:(lia) Hcj) as Hadv.
  destruct (Z.eq_dec (snd (turn chars j cj)) 1) as [H1 | H1].
  - assert (Hj : j = i - 1) by lia. subst j.
    rewrite Hp in Hcj. injection Hcj as <-.
    exists shaped0, p, fp, (fst (turn chars (i - 1) p)).
    repeat split; try assumption.
    unfold turn in H1 |- *. rewrite Hfp in H1 |- *.
    destruct (lig_here chars (i - 1) p); [discriminate H1 |].
    cbn [fst]. unfold next_joinb.
    replace (i - 1 + 1) with i by lia. rewrite Hch.
    rewrite (row_key_joinable ch f Hf).
    apply (select_form_joining p fp _ Hfp Hpc).
  - exfalso.
    assert (H2 : snd (turn chars j cj) = 2) by lia.
    pose proof (turn_two _ _ _ H2) as Hl.
    unfold lig_here in Hl.
    destruct (cj =? LAM); [| discriminate].
    replace (Z.to_nat (j + 1)) with (Z.to_nat (i - 1)) in Hl by lia.
    rewrite Hp in Hl.
    destruct (lookup _LAM_ALEF p) as [[iso fin] |] eqn:Hla; [| discriminate].
    destruct (lig_row_facts p iso fin Hla) as [Hnc _].
    unfold connects in Hnc. rewrite Hfp in Hnc. congruence.
Qed.

(** Beh, meem: the final meem follows the initial beh. *)
Lemma joined_form_follows_joining_form_witness :
  exists shaped0 p fp op,
    0 < 1 /\
    [0xFE91] = shaped0 ++ [op] /\
    nth_error [0x628; 0x645] (Z.to_nat (1 - 1)) = Some p /\
    lookup _AR_FORMS p = Some fp /\
    (initial fp = Some op \/ medial fp = Some op).
Proof.
  apply (joined_form_follows_joining_form [0x628; 0x645] [0xFE91] 1 0x645
           (F4 0xFEE1 0xFEE2 0xFEE3 0xFEE4) 0xFEE2).
  - apply (scan_turn _ [] 0); [constructor | reflexivity | reflexivity].
  - reflexivity.
  - reflexivity.
  - intros [Hlam _]. discriminate Hlam.
  - reflexivity.
  - left. reflexivity.
Defined.

(** X4. A table letter on its own takes its isolated form; of two table
    letters that are not a lam+alef pair, the first having an initial form
    and the second a final form, the first takes its initial and the
    second its final form. *)
Theorem one_and_two_letters :
  (forall (c : Z) (f : forms),
      lookup _AR_FORMS c = Some f -> _shape_run [c] = Ok [isolated f]) /\
  (forall (a b : Z) (fa fb : forms) (ia xb : Z),
      lookup _AR_FORMS a = Some fa -> initial fa = Some ia ->
      lookup _AR_FORMS b = Some fb -> final fb = Some xb ->
      ~ (a = LAM /\ In b ALEFS) ->
      _shape_run [a; b] = Ok [ia; xb]).
Proof.
  split.
  - intros c f Hf. unfold _shape_run. cbn [length]. rewrite shape_loop_S.
    change (0 <? len [c]) with true. cbv iota.
    rewrite (shape_body_turn [c] [] 0 c ltac:(lia) eq_refl).
    unfold turn, lig_here. rewrite Hf.
    change (nth_error [c] (Z.to_nat (0 + 1))) with (@None Z).
    destruct (c =? LAM); cbn [bind fst snd app];
      destruct f as [iso [fi |] [ini |] [me |]]; reflexivity.
  - intros a b fa fb ia xb Hfa Hia Hfb Hxb Hnolig.
    assert (Hlig : lig_here [a; b] 0 a = None).
    { unfold lig_here.
      destruct (Z.eqb_spec a LAM) as [-> | _]; [| reflexivity].
      change (nth_error [LAM; b] (Z.to_nat (0 + 1))) with (Some b).
      destruct (lookup _LAM_ALEF b) eqn:Hla; [| reflexivity].
      exfalso. apply Hnolig. split; [reflexivity |].
      apply str_contains_In. rewrite <- lam_alef_present, Hla. reflexivity. }
    unfold _shape_run. cbn [length]. rewrite shape_loop_S.
    change (0 <? len [a; b]) with true. cbv iota.
    rewrite (shape_body_turn [a; b] [] 0 a ltac:(lia) eq_refl).
    assert (Ht0 : turn [a; b] 0 a = (ia, 1)).
    { unfold turn. rewrite Hfa, Hlig. f_equal.
      unfold next_joinb.
      change (nth_error [a; b] (Z.to_nat (0 + 1))) with (Some b).
      rewrite (row_key_joinable b fb Hfb).
      change (prev_connb [a; b] 0) with false.
      unfold select_form. rewrite Hia. reflexivity. }
    rewrite Ht0. cbn [bind fst snd app Z.add]. rewrite shape_loop_S.
    change (1 <? len [a; b]) with true. cbv iota.
    rewrite (shape_body_turn [a; b] [ia] 1 b ltac:(lia) eq_refl).
    assert (Ht1 : turn [a; b] 1 b = (xb, 1)).
    { unfold turn, lig_here. rewrite Hfb.
      change (nth_error [a; b] (Z.to_nat (1 + 1))) with (@None Z).
      assert (Hpc : prev_connb [a; b] 1 = true).
      { unfold prev_connb.
        change (0 <? 1) with true. cbv iota.
        change (nth_error [a; b] (Z.to_nat (1 - 1))) with (Some a).
        unfold connects. rewrite Hfa, Hia. reflexivity. }
      rewrite Hpc.
      change (next_joinb [a; b] 1) with false.
      unfold select_form. rewrite Hxb.
      destruct (b =? LAM); reflexivity. }
    rewrite Ht1. reflexivity.
Qed.

(** Beh then meem. *)
Lemma one_and_two_letters_witness :
  _shape_run [0x628; 0x645] = Ok [0xFE91; 0xFEE2].
Proof.
  apply (proj2 one_and_two_letters 0x628 0x645
           (F4 0xFE8F 0xFE90 0xFE91 0xFE92) (F4 0xFEE1 0xFEE2 0xFEE3 0xFEE4)).
  - reflexivity.
  - reflexivity.
  - reflexivity.
  - reflexivity.
  - intros [H _]. discriminate H.
Defined.

(** ** The segmenter *)

Lemma alternating_snoc (tags : list (option bool)) (t1 t2 : option bool) :
  alternating (tags ++ [t1]) ->
  t1 <> t2 ->
  alternating ((tags ++ [t1]) ++ [t2]).
Proof.
  intros Halt Hne. induction tags as [| t tags IH].
  - cbn. auto.
  - destruct tags as [| t' tags].
    + cbn in *. tauto.
    + cbn [app alternating] in *. destruct Halt as [Htt Halt].
      split; [exact Htt |]. apply IH. exact Halt.
Qed.

Lemma seg_step_run_inv (st : seg_state) (ch : Z) :
  run_inv st -> run_inv (seg_step st ch).
Proof.
  intros Hinv. unfold seg_step.
  destruct Hinv as [[Hnil [Hnone Hsegs]] | [Hne [[b [Htag Hall]] [Hgood Halt]]]];
    cbn [fst snd] in *.
  - rewrite Hnil, Hnone, Hsegs. cbn. right.
    split; [discriminate |]. split.
    + exists (is_ar_of ch). split; [reflexivity |]. repeat constructor.
    + split; [constructor | exact I].
  - rewrite Htag in *. cbn [differs].
    assert (Hfull : is_empty (cur st) = false)
      by (destruct (cur st); [contradiction | reflexivity]).
    rewrite Hfull. cbn [negb]. rewrite andb_true_r.
    destruct (Bool.eqb (is_ar_of ch) b) eqn:Heq; cbn [negb];
      right; cbn [segs cur cur_ar].
    + apply eqb_prop in Heq.
      split; [destruct (cur st); discriminate |]. split.
      * exists b. split; [reflexivity |]. cbn [snd].
        apply Forall_app. split; [exact Hall | repeat constructor; exact Heq].
      * split; assumption.
    + split; [discriminate |]. split.
      * exists (is_ar_of ch). split; [reflexivity |]. repeat constructor.
      * split.
        -- apply Forall_app. split; [exact Hgood |].
           repeat constructor; [exact Hne |].
           exists b. split; [reflexivity | exact Hall].
        -- rewrite map_app. cbn [map fst].
           apply alternating_snoc; [exact Halt |].
           intros Hsame. injection Hsame as Hsame.
           rewrite Hsame, eqb_reflx in Heq. discriminate.
Qed.

Lemma fold_seg_run_inv (line : list Z) :
  forall st : seg_state, run_inv st -> run_inv (fold_left seg_step line st).
Proof.
  induction line as [| ch line IH]; intros st Hst; cbn [fold_left].
  - exact Hst.
  - apply IH, seg_step_run_inv, Hst.
Qed.

(** X5. The segments of a line are maximal runs: none is empty, each is
    tagged [True] or [False] and holds characters of that class only, and
    neighbouring segments have different tags. *)
Theorem segments_maximal_runs :
  forall line : list Z,
    Forall (fun sg => snd sg <> [] /\ uniform sg) (segments line) /\
    alternating (map fst (segments line)).
Proof.
  intros line. unfold segments.
  destruct (fold_seg_run_inv line (SegState [] [] None)) as
      [[Hnil [_ Hsegs]] | [Hne [Hu [Hgood Halt]]]].
  { left. repeat split; reflexivity. }
  - rewrite Hnil, Hsegs. cbn. split; [constructor | exact I].
  - destruct (cur (fold_left seg_step line (SegState [] [] None))) as [| c buf]
      eqn:Hcur; [contradiction |].
    cbn [is_empty negb]. split.
    + apply Forall_app. split; [exact Hgood |].
      repeat constructor; [discriminate | exact Hu].
    + rewrite map_app. exact Halt.
Qed.

Lemma fold_seg_same (b : bool) (line : list Z) :
  forall buf : list Z,
    buf <> [] ->
    Forall (fun c => is_ar_of c = b) line ->
    fold_left seg_step line (SegState [] buf (Some b)) =
      SegState [] (buf ++ line) (Some b).
Proof.
  induction line as [| ch line IH]; intros buf Hbuf Hall; cbn [fold_left].
  - rewrite app_nil_r. reflexivity.
  - inversion Hall as [| c l Hch Hrest]; subst.
    assert (Hstep : seg_step (SegState [] buf (Some (is_ar_of ch))) ch =
                      SegState [] (buf ++ [ch]) (Some (is_ar_of ch))).
    { unfold seg_step. cbn [cur_ar cur segs differs].
      rewrite eqb_reflx. reflexivity. }
    rewrite Hstep, IH; [| destruct buf; discriminate | exact Hrest].
    rewrite <- app_assoc. reflexivity.
Qed.

Lemma segments_one_run (line : list Z) (b : bool) :
  line <> [] ->
  Forall (fun c => is_ar_of c = b) line ->
  segments line = [(Some b, line)].
Proof.
  intros Hne Hall. destruct line as [| ch line]; [contradiction |].
  inversion Hall as [| c l Hch Hrest]; subst.
  unfold segments. cbn [fold_left].
  assert (Hfirst : seg_step (SegState [] [] None) ch =
                    SegState [] [ch] (Some (is_ar_of ch))) by reflexivity.
  rewrite Hfirst, fold_seg_same; [| discriminate | exact Hrest].
  reflexivity.
Qed.

(** X6. A line that is not empty and whose characters are all of one class
    is a single segment tagged with that class. *)
Theorem segments_single_class :
  forall (line : list Z) (b : bool),
    line <> [] ->
    Forall (fun c => is_ar_of c = b) line ->
    segments line = [(Some b, line)].
Proof. exact segments_one_run. Qed.

(** A run of Arabic-Indic digits and an Arabic comma. *)
Lemma segments_single_class_witness :
  segments [0x661; 0x60C; 0x662] = [(Some true, [0x661; 0x60C; 0x662])].
Proof.
  apply (segments_single_class [0x661; 0x60C; 0x662] true).
  - discriminate.
  - repeat constructor.
Defined.

Lemma seg_step_prepend (pre : list segment) (st : seg_state) (ch : Z) :
  seg_step (prepend pre st) ch = prepend pre (seg_step st ch).
Proof.
  unfold seg_step, prepend. cbn [segs cur cur_ar].
  destruct (differs (is_ar_of ch) (cur_ar st) && negb (is_empty (cur st)));
    cbn [segs cur cur_ar]; [rewrite app_assoc |]; reflexivity.
Qed.

Lemma fold_seg_prepend (pre : list segment) (line : list Z) :
  forall st : seg_state,
    fold_left seg_step line (prepend pre st) =
      prepend pre (fold_left seg_step line st).
Proof.
  induction line as [| ch line IH]; intros st; cbn [fold_left];
    [reflexivity |].
  rewrite seg_step_prepend. apply IH.
Qed.

Lemma close_prepend (pre : list segment) (st : seg_state) :
  close (prepend pre st) = pre ++ close st.
Proof.
  unfold close, prepend. cbn [segs cur cur_ar].
  destruct (negb (is_empty (cur st))); [rewrite app_assoc |]; reflexivity.
Qed.

Lemma segments_close (line : list Z) :
  segments line = close (fold_left seg_step line (SegState [] [] None)).
Proof. reflexivity. Qed.

(** After a character, the buffer is open and tagged with its class. *)
Lemma seg_step_open (st : seg_state) (ch : Z) :
  seg_inv st ->
  cur (seg_step st ch) <> [] /\ cur_ar (seg_step st ch) = Some (is_ar_of ch).
Proof.
  intros [_ Hcur]. unfold seg_step.
  destruct Hcur as [[Hnil Hnone] | [Hne [b [Htag Hall]]]]; cbn [fst snd] in *.
  - rewrite Hnil, Hnone. cbn. split; [discriminate | reflexivity].
  - rewrite Htag. cbn [differs].
    destruct (Bool.eqb (is_ar_of ch) b) eqn:Heq; cbn [negb andb].
    + apply eqb_prop in Heq. cbn [cur cur_ar]. split; [| congruence].
      destruct (cur st); discriminate.
    + destruct (cur st) as [| y buf]; [contradiction |].
      cbn. split; [discriminate | reflexivity].
Qed.

Lemma segments_split (l1 : list Z) (x c : Z) (l2 : list Z) :
  is_ar_of x <> is_ar_of c ->
  segments ((l1 ++ [x]) ++ c :: l2) =
    segments (l1 ++ [x]) ++ segments (c :: l2).
Proof.
  intros Hdiff.
  rewrite !segments_close, (fold_left_app seg_step (l1 ++ [x])).
  cbn [fold_left].
  set (st1 := fold_left seg_step (l1 ++ [x]) (SegState [] [] None)).
  assert (Hopen : cur st1 <> [] /\ cur_ar st1 = Some (is_ar_of x)).
  { unfold st1. rewrite fold_left_app. cbn [fold_left].
    apply seg_step_open, fold_seg_inv.
    split; [constructor | left; split; reflexivity]. }
  destruct Hopen as [Hne Htag].
  assert (Hstep : seg_step st1 c =
                    prepend (close st1) (SegState [] [c] (Some (is_ar_of c)))).
  { unfold seg_step, close, prepend. rewrite Htag. cbn [differs segs cur cur_ar].
    destruct (cur st1) as [| y buf]; [contradiction |].
    cbn [is_empty negb]. rewrite andb_true_r.
    destruct (Bool.eqb (is_ar_of c) (is_ar_of x)) eqn:Heq.
    - apply eqb_prop in Heq. congruence.
    - cbn [negb]. rewrite app_nil_r. reflexivity. }
  rewrite Hstep, fold_seg_prepend, close_prepend. reflexivity.
Qed.

(** X7. Where the class changes between two neighbouring characters of a
    line, the segments of the line are those of the part before followed by
    those of the part after. *)
Theorem segments_at_class_change :
  forall (l1 : list Z) (x c : Z) (l2 : list Z),
    is_ar_of x <> is_ar_of c ->
    segments ((l1 ++ [x]) ++ c :: l2) =
      segments (l1 ++ [x]) ++ segments (c :: l2).
Proof. exact segments_split. Qed.

(** [ab] then an Arabic comma and a digit. *)
Lemma segments_at_class_change_witness :
  segments (([0x61] ++ [0x62]) ++ 0x60C :: [0x661]) =
    segments ([0x61] ++ [0x62]) ++ segments (0x60C :: [0x661]).
Proof.
  apply (segments_at_class_change [0x61] 0x62 0x60C [0x661]).
  discriminate.
Defined.

(** ** The composer *)

Lemma parts_of_app (s1 s2 : list segment) :
  parts_of (s1 ++ s2) =
    (p1 <- parts_of s1 ;; p2 <- parts_of s2 ;; Ok (p1 ++ p2)).
Proof.
  induction s1 as [| sg s1 IH]; cbn [app parts_of bind].
  - destruct (parts_of s2); reflexivity.
  - destruct (part_of sg) as [p |]; cbn [bind]; [| reflexivity].
    rewrite IH. destruct (parts_of s1) as [p1 |]; cbn [bind]; [| reflexivity].
    destruct (parts_of s2); reflexivity.
Qed.

Lemma strip_inked (line : list Z) : inked line -> strip line <> [].
Proof.
  intros Hink.
  destruct (strip_not_blank line (or_intror Hink)) as [-> | H]; [| exact H].
  destruct Hink as [c [[] _]].
Qed.

Lemma ar_line_inked (line : list Z) :
  inked line ->
  ar_line line =
    (parts <- parts_of (segments line) ;; Ok (concat (map snd (rev parts)))).
Proof.
  intros Hink. unfold ar_line.
  pose proof (strip_inked line Hink) as Hs.
  destruct (strip line); [contradiction | reflexivity].
Qed.

Lemma inked_app_l (l1 l2 : list Z) : inked l1 -> inked (l1 ++ l2).
Proof.
  intros [c [Hin Hc]]. exists c. split; [| exact Hc].
  apply in_or_app. left. exact Hin.
Qed.

(** X8. Where the class changes between two neighbouring characters of a
    line, and both parts hold a character that is not whitespace, the
    output of the line is the output of the part after followed by the
    output of the part before. *)
Theorem ar_line_swaps_at_class_change :
  forall (l1 : list Z) (x c : Z) (l2 o1 o2 : list Z),
    is_ar_of x <> is_ar_of c ->
    inked (l1 ++ [x]) ->
    inked (c :: l2) ->
    ar_line (l1 ++ [x]) = Ok o1 ->
    ar_line (c :: l2) = Ok o2 ->
    ar_line ((l1 ++ [x]) ++ c :: l2) = Ok (o2 ++ o1).
Proof.
  intros l1 x c l2 o1 o2 Hdiff Hk1 Hk2 H1 H2.
  rewrite (ar_line_inked _ Hk1) in H1.
  rewrite (ar_line_inked _ Hk2) in H2.
  rewrite (ar_line_inked _ (inked_app_l _ (c :: l2) Hk1)).
  rewrite (segments_split l1 x c l2 Hdiff), parts_of_app.
  destruct (parts_of (segments (l1 ++ [x]))) as [p1 |]; [| discriminate].
  destruct (parts_of (segments (c :: l2))) as [p2 |]; [| discriminate].
  cbn [bind] in *. injection H1 as <-. injection H2 as <-.
  rewrite rev_app_distr, map_app, concat_app. reflexivity.
Qed.

(** A bullet and a space, then the letter beh. *)
Lemma ar_line_swaps_at_class_change_witness :
  ar_line (([0x2022] ++ [0x20]) ++ 0x628 :: []) = Ok ([0xFE8F] ++ [0x2022; 0x20]).
Proof.
  apply (ar_line_swaps_at_class_change [0x2022] 0x20 0x628 []).
  - discriminate.
  - exists 0x2022. split; [left; reflexivity | reflexivity].
  - exists 0x628. split; [left; reflexivity | reflexivity].
  - reflexivity.
  - reflexivity.
Defined.

(** X9. A line that is not empty and holds Arabic-class characters only
    gives its shaped run, reversed. *)
Theorem arabic_line_reversed :
  forall line : list Z,
    line <> [] ->
    Forall (fun c => is_ar_of c = true) line ->
    ar_line line = (shaped <- _shape_run line ;; Ok (rev shaped)).
Proof.
  intros line Hne Hall.
  assert (Hns : Forall (fun c => isspace c = false) line).
  { eapply Forall_impl; [| exact Hall]. exact is_ar_not_space. }
  unfold ar_line. rewrite (strip_no_space line Hns).
  destruct line as [| c line]; [contradiction |]. cbn [is_empty].
  rewrite (segments_one_run (c :: line) true Hne Hall).
  cbn [parts_of part_of tag_true]. rewrite (strip_no_space _ Hns).
  destruct (_shape_run (c :: line)) as [shaped |]; cbn [bind]; [| reflexivity].
  cbn [rev app map snd concat]. rewrite app_nil_r. reflexivity.
Qed.

(** Lam, alef, exclamation mark. *)
Lemma arabic_line_reversed_witness :
  ar_line [LAM; 0x627; 0x21] =
    (shaped <- _shape_run [LAM; 0x627; 0x21] ;; Ok (rev shaped)).
Proof.
  apply (arabic_line_reversed [LAM; 0x627; 0x21]).
  - discriminate.
  - repeat constructor.
Defined.

(** ** Lines *)

Lemma split_nl_app (t1 t2 : list Z) :
  split_nl (t1 ++ NL :: t2) = split_nl t1 ++ split_nl t2.
Proof.
  induction t1 as [| c t1 IH]; cbn [app split_nl].
  - rewrite Z.eqb_refl. reflexivity.
  - rewrite IH. destruct (c =? NL); [reflexivity |].
    pose proof (split_nl_not_nil t1) as Hne.
    destruct (split_nl t1); [contradiction | reflexivity].
Qed.

Lemma split_nl_line (s : list Z) :
  Forall (fun c => c <> NL) s -> split_nl s = [s].
Proof.
  induction 1 as [| c s Hc _ IH]; [reflexivity |].
  cbn [split_nl]. destruct (Z.eqb_spec c NL); [contradiction |].
  rewrite IH. reflexivity.
Qed.

Lemma split_nl_no_nl (s : list Z) :
  Forall (Forall (fun c => c <> NL)) (split_nl s).
Proof.
  induction s as [| c s IH]; [repeat constructor |].
  cbn [split_nl]. destruct (Z.eqb_spec c NL) as [-> | Hc].
  - constructor; [constructor | exact IH].
  - destruct (split_nl s) as [| l ls]; [repeat constructor; exact Hc |].
    inversion IH; subst. constructor; [constructor |]; assumption.
Qed.

Lemma join_nl_app (ls1 ls2 : list (list Z)) :
  ls1 <> [] -> ls2 <> [] ->
  join_nl (ls1 ++ ls2) = join_nl ls1 ++ NL :: join_nl ls2.
Proof.
  intros H1 H2. induction ls1 as [| l ls1 IH]; [contradiction |].
  destruct ls1 as [| l' ls1].
  - destruct ls2; [contradiction | reflexivity].
  - change (join_nl ((l :: l' :: ls1) ++ ls2))
      with (l ++ NL :: join_nl ((l' :: ls1) ++ ls2)).
    rewrite IH by discriminate.
    change (join_nl (l :: l' :: ls1)) with (l ++ NL :: join_nl (l' :: ls1)).
    rewrite <- app_assoc. reflexivity.
Qed.

Lemma split_join_nl (rs : list (list Z)) :
  rs <> [] ->
  Forall (Forall (fun c => c <> NL)) rs ->
  split_nl (join_nl rs) = rs.
Proof.
  intros Hne Hall. induction Hall as [| r rs Hr Hrs IH]; [contradiction |].
  destruct rs as [| r' rs].
  - apply split_nl_line. exact Hr.
  - change (join_nl (r :: r' :: rs)) with (r ++ NL :: join_nl (r' :: rs)).
    rewrite split_nl_app, (split_nl_line r Hr), IH by discriminate.
    reflexivity.
Qed.

Lemma result_lines_app (ls1 ls2 : list (list Z)) :
  result_lines (ls1 ++ ls2) =
    (r1 <- result_lines ls1 ;; r2 <- result_lines ls2 ;; Ok (r1 ++ r2)).
Proof.
  induction ls1 as [| l ls1 IH]; cbn [app result_lines bind].
  - destruct (result_lines ls2); reflexivity.
  - destruct (ar_line l) as [r |]; cbn [bind]; [| reflexivity].
    rewrite IH. destruct (result_lines ls1) as [r1 |]; cbn [bind];
      [| reflexivity].
    destruct (result_lines ls2); reflexivity.
Qed.

(** [result_lines] pairs every line with its output. *)
Lemma result_lines_each (lines : list (list Z)) :
  forall rs, result_lines lines = Ok rs ->
             Forall2 (fun line r => ar_line line = Ok r) lines rs.
Proof.
  induction lines as [| l lines IH]; intros rs Hrs; cbn [result_lines] in Hrs.
  - injection Hrs as <-. constructor.
  - destruct (ar_line l) as [r |] eqn:Hr; [| discriminate].
    destruct (result_lines lines) as [rs' |]; [| discriminate].
    cbn [bind] in Hrs. injection Hrs as <-.
    constructor; [exact Hr | apply IH; reflexivity].
Qed.

(** The test for the empty string does not change what [ar] returns. *)
Lemma ar_as_lines (text : list Z) :
  ar text = (rs <- result_lines (split_nl text) ;; Ok (join_nl rs)).
Proof. destruct text; reflexivity. Qed.

(** X10. [ar] works line by line: the output of two texts joined by a line
    feed is the two outputs joined by a line feed. *)
Theorem ar_line_by_line :
  forall t1 t2 o1 o2 : list Z,
    ar t1 = Ok o1 ->
    ar t2 = Ok o2 ->
    ar (t1 ++ NL :: t2) = Ok (o1 ++ NL :: o2).
Proof.
  intros t1 t2 o1 o2 H1 H2.
  rewrite ar_as_lines in *.
  rewrite split_nl_app, result_lines_app.
  destruct (result_lines (split_nl t1)) as [r1 |] eqn:Hr1; [| discriminate].
  destruct (result_lines (split_nl t2)) as [r2 |] eqn:Hr2; [| discriminate].
  cbn [bind] in *. injection H1 as <-. injection H2 as <-.
  pose proof (Forall2_length (result_lines_each _ _ Hr1)) as Hl1.
  pose proof (Forall2_length (result_lines_each _ _ Hr2)) as Hl2.
  pose proof (split_nl_not_nil t1). pose proof (split_nl_not_nil t2).
  rewrite join_nl_app; [reflexivity | |].
  - destruct r1; [destruct (split_nl t1); [contradiction | discriminate] |].
    discriminate.
  - destruct r2; [destruct (split_nl t2); [contradiction | discriminate] |].
    discriminate.
Qed.

(** [Hi!] on one line and beh on the next. *)
Lemma ar_line_by_line_witness :
  ar ([0x48; 0x69; 0x21] ++ NL :: [0x628]) =
    Ok ([0x21; 0x48; 0x69] ++ NL :: [0xFE8F]).
Proof.
  apply (ar_line_by_line [0x48; 0x69; 0x21] [0x628]); reflexivity.
Defined.

Lemma lstrip_incl (s : list Z) (c : Z) : In c (lstrip s) -> In c s.
Proof.
  induction s as [| x s IH]; cbn [lstrip]; [auto |].
  destruct (isspace x); [| auto]. intros H. right. apply IH, H.
Qed.

Lemma strip_incl (s : list Z) (c : Z) : In c (strip s) -> In c s.
Proof.
  unfold strip, rstrip. intros H.
  apply in_rev, lstrip_incl in H. apply in_rev in H.
  apply lstrip_incl. exact H.
Qed.

Lemma lstrip_length (s : list Z) : (length (lstrip s) <= length s)%nat.
Proof.
  induction s as [| x s IH]; cbn [lstrip]; [lia |].
  destruct (isspace x); cbn [length]; lia.
Qed.

Lemma strip_length (s : list Z) : (length (strip s) <= length s)%nat.
Proof.
  unfold strip, rstrip. rewrite length_rev.
  pose proof (lstrip_length (rev (lstrip s))) as H1.
  rewrite length_rev in H1. pose proof (lstrip_length s). lia.
Qed.

Lemma segments_flat (line : list Z) : concat (map snd (segments line)) = line.
Proof.
  rewrite segments_close. unfold close.
  pose proof (fold_seg_concat line (SegState [] [] None)) as H.
  cbn [segs cur map concat app] in H.
  destruct (cur (fold_left seg_step line (SegState [] [] None))) as [| c buf];
    cbn [is_empty negb].
  - rewrite app_nil_r in H. exact H.
  - rewrite map_app, concat_app. cbn [map concat snd].
    rewrite app_nil_r. exact H.
Qed.

Lemma segment_chars_in (line : list Z) (sg : segment) (c : Z) :
  In sg (segments line) -> In c (snd sg) -> In c line.
Proof.
  intros Hsg Hc. rewrite <- (segments_flat line).
  apply in_concat. exists (snd sg). split; [| exact Hc].
  apply in_map. exact Hsg.
Qed.

Lemma parts_each (sgs : list segment) :
  forall ps, parts_of sgs = Ok ps ->
             Forall2 (fun sg p => part_of sg = Ok p) sgs ps.
Proof.
  induction sgs as [| sg sgs IH]; intros ps Hps; cbn [parts_of] in Hps.
  - injection Hps as <-. constructor.
  - destruct (part_of sg) as [p |] eqn:Hp; [| discriminate].
    destruct (parts_of sgs) as [ps' |]; [| discriminate].
    cbn [bind] in Hps. injection Hps as <-.
    constructor; [exact Hp | apply IH; reflexivity].
Qed.

(** A character that is not Arabic-class has no table entry. *)
Lemma other_no_entry (c : Z) : is_ar_of c = false -> lookup _AR_FORMS c = None.
Proof.
  intros Hc. destruct (lookup _AR_FORMS c) as [f |] eqn:Hf; [| reflexivity].
  pose proof (row_key_range c f Hf) as Hr.
  assert (Har : is_ar_of c = true) by (apply is_ar_of_spec; lia).
  congruence.
Qed.

Lemma part_codes (sg : segment) (p : direction * list Z) :
  uniform sg -> part_of sg = Ok p -> Forall (code_ok (snd sg)) (snd p).
Proof.
  destruct sg as [tag seg]. intros [b [Htag Hall]] Hp.
  cbn [fst snd] in *. subst tag. unfold part_of in Hp.
  destruct b; cbn [tag_true] in Hp.
  - destruct (shape_run_codes (strip seg)) as [out [Hout Hcodes]].
    rewrite Hout in Hp. cbn [bind] in Hp. injection Hp as <-. cbn [snd].
    apply Forall_rev. eapply Forall_impl; [| exact Hcodes].
    intros o [[Hin Hno] | Hr]; [left | right; exact Hr].
    split; [apply strip_incl, Hin | exact Hno].
  - injection Hp as <-. cbn [snd].
    rewrite Forall_forall in *. intros c Hc. left.
    split; [exact Hc | apply other_no_entry, Hall, Hc].
Qed.

Lemma shape_run_length (chars out : list Z) :
  _shape_run chars = Ok out -> (length out <= length chars)%nat.
Proof.
  intros Hout. destruct (shape_run_tokens chars) as [out' [Hout' Hall]].
  rewrite Hout in Hout'. injection Hout' as <-.
  pose proof (Forall2_length Hall). pose proof (tokenize_length chars). lia.
Qed.

Lemma part_length (sg : segment) (p : direction * list Z) :
  part_of sg = Ok p -> (length (snd p) <= length (snd sg))%nat.
Proof.
  destruct sg as [tag seg]. unfold part_of. destruct (tag_true tag).
  - destruct (_shape_run (strip seg)) as [out |] eqn:Hout; [| discriminate].
    cbn [bind]. intros Hp. injection Hp as <-. cbn [snd].
    rewrite length_rev. pose proof (shape_run_length _ _ Hout).
    pose proof (strip_length seg). lia.
  - intros Hp. injection Hp as <-. cbn [snd]. lia.
Qed.

Lemma concat_rev_length {A} (ls : list (list A)) :
  length (concat (rev ls)) = length (concat ls).
Proof.
  induction ls as [| l ls IH]; [reflexivity |].
  cbn [rev concat]. rewrite concat_app, !length_app, IH. cbn [concat length].
  rewrite app_nil_r. lia.
Qed.

Lemma parts_length (sgs : list segment) (ps : list (direction * list Z)) :
  Forall2 (fun sg p => part_of sg = Ok p) sgs ps ->
  (length (concat (map snd ps)) <= length (concat (map snd sgs)))%nat.
Proof.
  induction 1 as [| sg p sgs ps Hp _ IH]; [reflexivity |].
  cbn [map concat]. rewrite !length_app.
  pose proof (part_length _ _ Hp). lia.
Qed.

Lemma ar_line_length (line r : list Z) :
  ar_line line = Ok r -> (length r <= length line)%nat.
Proof.
  unfold ar_line. destruct (is_empty (strip line)).
  - intros H. injection H as <-. cbn [length]. lia.
  - destruct (parts_of (segments line)) as [ps |] eqn:Hps; [| discriminate].
    cbn [bind]. intros H. injection H as <-.
    rewrite map_rev, concat_rev_length.
    pose proof (parts_length _ _ (parts_each _ _ Hps)) as Hlen.
    rewrite segments_flat in Hlen. exact Hlen.
Qed.

Lemma Forall_concat_all {A} (P : A -> Prop) (ls : list (list A)) :
  Forall (Forall P) ls -> Forall P (concat ls).
Proof.
  induction 1 as [| l ls Hl _ IH]; [constructor |].
  cbn [concat]. apply Forall_app. split; assumption.
Qed.

Lemma parts_codes (line : list Z) (sgs : list segment)
      (ps : list (direction * list Z)) :
  (forall sg, In sg sgs -> In sg (segments line)) ->
  Forall2 (fun sg p => part_of sg = Ok p) sgs ps ->
  Forall (Forall (code_ok line)) (map snd ps).
Proof.
  intros Hin Heach.
  pose proof (segments_uniform line) as Hu. rewrite Forall_forall in Hu.
  induction Heach as [| sg p sgs ps Hp _ IH]; [constructor |].
  cbn [map]. constructor.
  - assert (Hsg : In sg (segments line)) by (apply Hin; left; reflexivity).
    eapply Forall_impl; [| exact (part_codes sg p (Hu sg Hsg) Hp)].
    intros o [[Ho Hno] | Hr]; [left | right; exact Hr].
    split; [exact (segment_chars_in line sg o Hsg Ho) | exact Hno].
  - apply IH. intros sg' Hsg'. apply Hin. right. exact Hsg'.
Qed.

Lemma ar_line_codes (line r : list Z) :
  ar_line line = Ok r -> Forall (code_ok line) r.
Proof.
  unfold ar_line. destruct (is_empty (strip line)).
  - intros H. injection H as <-. constructor.
  - destruct (parts_of (segments line)) as [ps |] eqn:Hps; [| discriminate].
    cbn [bind]. intros H. injection H as <-.
    apply Forall_concat_all. rewrite map_rev. apply Forall_rev.
    apply (parts_codes line (segments line)); [auto |].
    apply parts_each. exact Hps.
Qed.

Lemma NL_no_entry : lookup _AR_FORMS NL = None.
Proof. reflexivity. Qed.

Lemma ar_line_no_nl (line r : list Z) :
  Forall (fun c => c <> NL) line ->
  ar_line line = Ok r ->
  Forall (fun c => c <> NL) r.
Proof.
  intros Hline Hr. rewrite Forall_forall in Hline.
  eapply Forall_impl; [| exact (ar_line_codes line r Hr)].
  intros o [[Hin _] | Hrange]; [exact (Hline o Hin) |].
  unfold NL. lia.
Qed.

Lemma result_lines_no_nl (lines rs : list (list Z)) :
  Forall (Forall (fun c => c <> NL)) lines ->
  Forall2 (fun line r => ar_line line = Ok r) lines rs ->
  Forall (Forall (fun c => c <> NL)) rs.
Proof.
  intros Hlines Heach.
  induction Heach as [| l r lines rs Hr _ IH]; [constructor |].
  inversion Hlines; subst. constructor.
  - apply (ar_line_no_nl l r); assumption.
  - apply IH. assumption.
Qed.

(** The lines of the output of [ar] are the outputs of the lines. *)
Lemma ar_lines (text : list Z) :
  exists rs,
    result_lines (split_nl text) = Ok rs /\
    ar text = Ok (join_nl rs) /\
    split_nl (join_nl rs) = rs.
Proof.
  destruct (result_lines_total (split_nl text)) as [rs Hrs].
  exists rs. split; [exact Hrs |]. split.
  - rewrite ar_as_lines, Hrs. reflexivity.
  - pose proof (result_lines_each _ _ Hrs) as Heach.
    apply split_join_nl.
    + pose proof (split_nl_not_nil text) as Hne.
      pose proof (Forall2_length Heach) as Hlen.
      destruct rs; [| discriminate].
      destruct (split_nl text); [contradiction | discriminate].
    + apply (result_lines_no_nl (split_nl text)); [apply split_nl_no_nl |].
      exact Heach.
Qed.

(** X11. The output of [ar] has as many lines as the input, and each line
    of the output is the output of the line at the same place. *)
Theorem ar_output_lines :
  forall text : list Z,
    exists out,
      ar text = Ok out /\
      result_lines (split_nl text) = Ok (split_nl out) /\
      length (split_nl out) = length (split_nl text).
Proof.
  intros text. destruct (ar_lines text) as [rs [Hrs [Har Hsplit]]].
  exists (join_nl rs). rewrite Hsplit. split; [exact Har |].
  split; [exact Hrs |].
  symmetry. exact (Forall2_length (result_lines_each _ _ Hrs)).
Qed.

Lemma join_nl_length_le (rs ls : list (list Z)) :
  Forall2 (fun l r => (length r <= length l)%nat) ls rs ->
  (length (join_nl rs) <= length (join_nl ls))%nat.
Proof.
  induction 1 as [| l r ls rs Hlr Hrest IH]; [reflexivity |].
  destruct Hrest as [| l' r' ls rs Hlr' Hrest].
  - exact Hlr.
  - change (join_nl (r :: r' :: rs)) with (r ++ NL :: join_nl (r' :: rs)).
    change (join_nl (l :: l' :: ls)) with (l ++ NL :: join_nl (l' :: ls)).
    rewrite !length_app. cbn [length] in *. lia.
Qed.

(** X12. [ar] never returns more characters than it is given. *)
Theorem ar_never_longer :
  forall text : list Z,
    exists out, ar text = Ok out /\ (length out <= length text)%nat.
Proof.
  intros text. destruct (ar_lines text) as [rs [Hrs [Har _]]].
  exists (join_nl rs). split; [exact Har |].
  replace (length text) with (length (join_nl (split_nl text)))
    by (rewrite join_split_nl; reflexivity).
  apply join_nl_length_le.
  eapply Forall2_impl; [| exact (result_lines_each _ _ Hrs)].
  intros l r Hr. exact (ar_line_length l r Hr).
Qed.

Lemma split_nl_two (s : list Z) :
  (2 <= length (split_nl s))%nat -> In NL s.
Proof.
  induction s as [| c s IH]; cbn [split_nl length]; [lia |].
  destruct (Z.eqb_spec c NL) as [-> | _]; [intros _; left; reflexivity |].
  intros Hlen. right. apply IH.
  destruct (split_nl s); cbn [length] in *; lia.
Qed.

Lemma join_nl_Forall (P : Z -> Prop) (rs : list (list Z)) :
  Forall (Forall P) rs ->
  ((2 <= length rs)%nat -> P NL) ->
  Forall P (join_nl rs).
Proof.
  induction 1 as [| r rs Hr Hrs IH]; intros HNL; [constructor |].
  destruct rs as [| r' rs]; [exact Hr |].
  change (join_nl (r :: r' :: rs)) with (r ++ NL :: join_nl (r' :: rs)).
  assert (HP : P NL) by (apply HNL; cbn [length]; lia).
  apply Forall_app. split; [exact Hr |].
  constructor; [exact HP |]. apply IH. intros _. exact HP.
Qed.

(** X13. Every code point of the output of [ar] is a character of the
    input or a presentation form of U+FE80..U+FEFC, and none has a table
    entry: the output holds no base letter of the form table. *)
Theorem ar_leaves_no_letter :
  forall text : list Z,
    exists out,
      ar text = Ok out /\
      Forall (fun o => lookup _AR_FORMS o = None /\
                       (In o text \/ 0xFE80 <= o <= 0xFEFC)) out.
Proof.
  intros text. destruct (ar_lines text) as [rs [Hrs [Har _]]].
  exists (join_nl rs). split; [exact Har |].
  pose proof (result_lines_each _ _ Hrs) as Heach.
  apply join_nl_Forall.
  - assert (Hsrc : Forall (Forall (fun c => In c text)) (split_nl text)).
    { apply split_nl_Forall. apply Forall_forall. auto. }
    clear Hrs Har.
    induction Heach as [| l r ls rs' Hr _ IH]; [constructor |].
    inversion Hsrc as [| ? ? Hl Hls]; subst.
    constructor; [| apply IH; exact Hls].
    rewrite Forall_forall in Hl.
    eapply Forall_impl; [| exact (ar_line_codes l r Hr)].
    intros o [[Hin Hno] | Hrange].
    + split; [exact Hno | left; apply Hl, Hin].
    + split; [apply no_entry_above_letters; lia | right; exact Hrange].
  - intros Hlen. split; [exact NL_no_entry |]. left.
    apply split_nl_two. rewrite (Forall2_length Heach). exact Hlen.
Qed.

Lemma lstrip_head (s : list Z) (c : Z) (s' : list Z) :
  lstrip s = c :: s' -> isspace c = false /\ In c s.
Proof.
  induction s as [| x s IH]; cbn [lstrip]; [discriminate |].
  destruct (isspace x) eqn:Hx.
  - intros H. destruct (IH H) as [Hc Hin]. split; [exact Hc | right; exact Hin].
  - intros H. injection H as <- _. split; [exact Hx | left; reflexivity].
Qed.

Lemma strip_inked_inv (line : list Z) : strip line <> [] -> inked line.
Proof.
  intros Hs. destruct (lstrip line) as [| c s'] eqn:Hl.
  - exfalso. apply Hs. unfold strip. rewrite Hl. reflexivity.
  - exists c. destruct (lstrip_head line c s' Hl) as [Hc Hin].
    split; assumption.
Qed.

Lemma Forall2_In_l {A B} (R : A -> B -> Prop) (l1 : list A) (l2 : list B)
      (x : A) :
  Forall2 R l1 l2 -> In x l1 -> exists y, In y l2 /\ R x y.
Proof.
  induction 1 as [| a b l1 l2 Hab _ IH]; intros Hin; [contradiction |].
  destruct Hin as [-> | Hin].
  - exists b. split; [left; reflexivity | exact Hab].
  - destruct (IH Hin) as [y [Hy Hxy]]. exists y. split; [right |]; assumption.
Qed.

Lemma tokenize_not_nil (chars : list Z) : chars <> [] -> tokenize chars <> [].
Proof.
  destruct chars as [| c [| a tl]]; [contradiction | discriminate |].
  intros _. rewrite tokenize_cons2.
  destruct ((c =? LAM) && str_contains ALEFS a); discriminate.
Qed.

(** The part of a segment that holds a character that is not whitespace
    holds one too. *)
Lemma part_inked (sg : segment) (p : direction * list Z) :
  uniform sg -> inked (snd sg) -> part_of sg = Ok p -> inked (snd p).
Proof.
  destruct sg as [tag seg]. intros [b [Htag Hall]] Hink Hp.
  cbn [fst snd] in *. subst tag. unfold part_of in Hp.
  destruct b; cbn [tag_true] in Hp.
  - assert (Hns : Forall (fun c => isspace c = false) seg).
    { eapply Forall_impl; [| exact Hall]. exact is_ar_not_space. }
    rewrite (strip_no_space seg Hns) in Hp.
    destruct (shape_run_tokens seg) as [out [Hout Hem]].
    rewrite Hout in Hp. cbn [bind] in Hp. injection Hp as <-. cbn [snd].
    destruct (shape_run_codes seg) as [out' [Hout' Hcodes]].
    rewrite Hout in Hout'. injection Hout' as <-.
    assert (Hne : seg <> []) by (destruct Hink as [c [Hc _]]; destruct seg;
                                 [contradiction | discriminate]).
    pose proof (tokenize_not_nil seg Hne) as Htok.
    destruct Hem as [| t o toks out Hto Hrest]; [contradiction |].
    exists o. split; [apply in_rev; rewrite rev_involutive; left; reflexivity |].
    inversion Hcodes as [| ? ? Ho _]; subst.
    rewrite Forall_forall in Hall, Hns.
    destruct Ho as [[Hin _] | Hr]; [apply Hns, Hin |].
    apply not_true_is_false. intros Hsp. unfold isspace in Hsp.
    rewrite !orb_true_iff, !andb_true_iff, !Z.leb_le, !Z.eqb_eq in Hsp. lia.
  - injection Hp as <-. exact Hink.
Qed.

Lemma ar_line_keeps_ink (line r : list Z) :
  inked line -> ar_line line = Ok r -> inked r.
Proof.
  intros Hink Hr. rewrite (ar_line_inked line Hink) in Hr.
  destruct (parts_of (segments line)) as [ps |] eqn:Hps; [| discriminate].
  cbn [bind] in Hr. injection Hr as <-.
  destruct Hink as [c [Hc Hsp]].
  rewrite <- (segments_flat line) in Hc. apply in_concat in Hc.
  destruct Hc as [seg [Hseg Hc]]. apply in_map_iff in Hseg.
  destruct Hseg as [sg [<- Hsg]].
  destruct (Forall2_In_l _ _ _ sg (parts_each _ _ Hps) Hsg) as [p [Hp Hpart]].
  pose proof (segments_uniform line) as Hu. rewrite Forall_forall in Hu.
  destruct (part_inked sg p (Hu sg Hsg)) as [x [Hx Hxs]];
    [exists c; split; assumption | exact Hpart |].
  exists x. split; [| exact Hxs].
  apply in_concat. exists (snd p). split; [| exact Hx].
  apply in_map, in_rev. rewrite rev_involutive. exact Hp.
Qed.

(** X14. A line that holds a character that is not whitespace gives an
    output that holds one too: only blank lines give the empty line. *)
Theorem ar_line_not_blank :
  forall line r : list Z,
    inked line -> ar_line line = Ok r -> inked r /\ r <> [].
Proof.
  intros line r Hink Hr.
  pose proof (ar_line_keeps_ink line r Hink Hr) as Hk.
  split; [exact Hk |].
  destruct Hk as [x [Hx _]]. intros ->. contradiction.
Qed.

(** A space, then beh. *)
Lemma ar_line_not_blank_witness :
  inked [0xFE8F; 0x20] /\ [0xFE8F; 0x20] <> [].
Proof.
  apply (ar_line_not_blank [0x20; 0x628] [0xFE8F; 0x20]).
  - exists 0x628. split; [right; left; reflexivity | reflexivity].
  - reflexivity.
Defined.

Lemma ar_line_settled (line r : list Z) :
  letters_only line ->
  ar_line line = Ok r ->
  ar_line r = Ok r.
Proof.
  intros Hlet Hr. apply ar_line_plain.
  - eapply Forall_impl; [| exact (ar_line_codes line r Hr)].
    intros o [[Hin Hno] | Hrange].
    + destruct (is_ar_of o) eqn:Har; [| reflexivity].
      exfalso. exact (Hlet o Hin Har Hno).
    + apply not_true_is_false. intros Har. apply is_ar_of_spec in Har. lia.
  - destruct (strip line) as [| c s] eqn:Hs.
    + left. unfold ar_line in Hr. rewrite Hs in Hr. cbn [is_empty] in Hr.
      injection Hr as <-. reflexivity.
    + right. apply strip_inked. apply (ar_line_keeps_ink line r); [| exact Hr].
      apply strip_inked_inv. rewrite Hs. discriminate.
Qed.

(** X15. On a text whose Arabic-class characters are all table letters, a
    second application of [ar] changes nothing. *)
Theorem ar_twice_on_letters :
  forall text : list Z,
    letters_only text ->
    exists out, ar text = Ok out /\ ar out = Ok out.
Proof.
  intros text Hlet. destruct (ar_lines text) as [rs [Hrs [Har Hsplit]]].
  exists (join_nl rs). split; [exact Har |].
  rewrite ar_as_lines, Hsplit, (result_lines_same rs); [reflexivity |].
  pose proof (result_lines_each _ _ Hrs) as Heach.
  assert (Hsrc : Forall (Forall (fun c => In c text)) (split_nl text)).
  { apply split_nl_Forall. apply Forall_forall. auto. }
  clear Hrs Har Hsplit.
  induction Heach as [| l r ls rs' Hr _ IH]; [constructor |].
  inversion Hsrc as [| ? ? Hl Hls]; subst.
  constructor; [| apply IH; exact Hls].
  apply (ar_line_settled l r); [| exact Hr].
  rewrite Forall_forall in Hl.
  intros c Hc. apply Hlet, Hl, Hc.
Qed.

(** The scenario's input: the Arabic word, a space, [Hello]. *)
Lemma ar_twice_on_letters_witness :
  exists out, ar MARHABA_HELLO = Ok out /\ ar out = Ok out.
Proof.
  apply (ar_twice_on_letters MARHABA_HELLO).
  intros c Hin Har. cbn in Hin.
  repeat (destruct Hin as [<- | Hin];
          [first [discriminate | discriminate Har] |]).
  contradiction.
Defined.

(** ** [strip] *)

Lemma lstrip_split (s : list Z) :
  exists pre, s = pre ++ lstrip s /\ Forall (fun c => isspace c = true) pre.
Proof.
  induction s as [| x s [pre [Hs Hpre]]]; [exists []; split; [reflexivity | constructor] |].
  cbn [lstrip]. destruct (isspace x) eqn:Hx.
  - exists (x :: pre). split; [cbn [app]; f_equal; exact Hs |].
    constructor; assumption.
  - exists []. split; [reflexivity | constructor].
Qed.

(** [strip] removes a run of whitespace at each end and nothing else. *)
Lemma strip_split (s : list Z) :
  exists pre post,
    s = pre ++ strip s ++ post /\
    Forall (fun c => isspace c = true) pre /\
    Forall (fun c => isspace c = true) post.
Proof.
  destruct (lstrip_split s) as [pre [Hs Hpre]].
  destruct (lstrip_split (rev (lstrip s))) as [tail [Hr Htail]].
  exists pre, (rev tail). split; [| split; [exact Hpre | apply Forall_rev, Htail]].
  unfold strip, rstrip. rewrite <- rev_app_distr, <- Hr, rev_involutive.
  exact Hs.
Qed.

Lemma lstrip_fixed (s : list Z) :
  (forall c r, s = c :: r -> isspace c = false) -> lstrip s = s.
Proof.
  intros H. destruct s as [| c r]; [reflexivity |].
  cbn [lstrip]. rewrite (H c r eq_refl). reflexivity.
Qed.

Lemma strip_last (s : list Z) (c : Z) (init : list Z) :
  strip s = init ++ [c] -> isspace c = false.
Proof.
  unfold strip, rstrip. intros H.
  apply (f_equal (@rev Z)) in H. rewrite rev_involutive, rev_app_distr in H.
  cbn [rev app] in H. exact (proj1 (lstrip_head _ _ _ H)).
Qed.

Lemma strip_first (s : list Z) (c : Z) (rest : list Z) :
  strip s = c :: rest -> isspace c = false.
Proof.
  intros H.
  destruct (lstrip_split (rev (lstrip s))) as [tail [Hr _]].
  apply (f_equal (@rev Z)) in Hr.
  rewrite rev_involutive, rev_app_distr in Hr.
  change (rev (lstrip (rev (lstrip s)))) with (strip s) in Hr.
  rewrite H in Hr. cbn [app] in Hr.
  exact (proj1 (lstrip_head _ _ _ Hr)).
Qed.

Lemma strip_strip (s : list Z) : strip (strip s) = strip s.
Proof.
  unfold strip at 1. rewrite (lstrip_fixed (strip s)).
  - unfold rstrip. rewrite lstrip_fixed; [apply rev_involutive |].
    intros c r Hrev. apply (strip_last s c (rev r)).
    rewrite <- (rev_involutive (strip s)), Hrev. reflexivity.
  - intros c r. apply strip_first.
Qed.

Lemma strip_Forall (P : Z -> Prop) (s : list Z) :
  Forall P s -> Forall P (strip s).
Proof.
  intros H. rewrite Forall_forall in *. intros c Hc.
  apply H, strip_incl, Hc.
Qed.

(** ** [_strip_emoji] *)

Lemma re_sub_class_filter (cls : Z -> bool) (text : list Z) :
  re_sub_class cls text = filter (fun c => negb (cls c)) text.
Proof.
  induction text as [| c text IH]; [reflexivity |].
  cbn [re_sub_class filter]. destruct (cls c); cbn [negb]; rewrite IH;
    reflexivity.
Qed.

Lemma re_sub_class_clean (cls : Z -> bool) (text : list Z) :
  Forall (fun c => cls c = false) (re_sub_class cls text).
Proof.
  induction text as [| c text IH]; [constructor |].
  cbn [re_sub_class]. destruct (cls c) eqn:Hc; [exact IH |].
  constructor; assumption.
Qed.

Lemma re_sub_class_fixed (cls : Z -> bool) (text : list Z) :
  Forall (fun c => cls c = false) text -> re_sub_class cls text = text.
Proof.
  induction 1 as [| c text Hc _ IH]; [reflexivity |].
  cbn [re_sub_class]. rewrite Hc, IH. reflexivity.
Qed.

Lemma strip_emoji_clean (text : list Z) :
  Forall (fun c => is_emoji c = false) (_strip_emoji text).
Proof. apply strip_Forall, re_sub_class_clean. Qed.

(** X16. What [_strip_emoji] returns holds no character of the pattern's
    class and neither starts nor ends with whitespace. *)
Theorem strip_emoji_result :
  forall text : list Z,
    Forall (fun c => is_emoji c = false) (_strip_emoji text) /\
    (forall c rest, _strip_emoji text = c :: rest -> isspace c = false) /\
    (forall c init, _strip_emoji text = init ++ [c] -> isspace c = false).
Proof.
  intros text. split; [apply strip_emoji_clean |]. split.
  - intros c rest. apply strip_first.
  - intros c init. apply strip_last.
Qed.

(** A target emoji, a space, [A], a gear with its variation selector. *)
Lemma strip_emoji_result_witness :
  _strip_emoji [0x1F3AF; 0x20; 0x41; 0x2699; 0xFE0F] = [0x41] /\
  isspace 0x41 = false.
Proof.
  split; [reflexivity |].
  apply (proj1 (proj2 (strip_emoji_result
                         [0x1F3AF; 0x20; 0x41; 0x2699; 0xFE0F])) 0x41 []).
  reflexivity.
Defined.

(** X17. [_strip_emoji] is idempotent. *)
Theorem strip_emoji_idempotent :
  forall text : list Z, _strip_emoji (_strip_emoji text) = _strip_emoji text.
Proof.
  intros text. unfold _strip_emoji at 1.
  rewrite (re_sub_class_fixed is_emoji _ (strip_emoji_clean text)).
  apply strip_strip.
Qed.

Lemma filter_solid_space (s : list Z) :
  Forall (fun c => isspace c = true) s -> filter solid s = [].
Proof.
  induction 1 as [| c s Hc _ IH]; [reflexivity |].
  cbn [filter]. unfold solid at 1. rewrite Hc, andb_false_r. exact IH.
Qed.

Lemma filter_solid_re_sub (text : list Z) :
  filter solid (re_sub_class is_emoji text) = filter solid text.
Proof.
  induction text as [| c text IH]; [reflexivity |].
  cbn [re_sub_class filter]. unfold solid at 2.
  destruct (is_emoji c) eqn:Hc; cbn [negb andb]; [exact IH |].
  cbn [filter]. unfold solid at 1. rewrite Hc, IH. reflexivity.
Qed.

(** X18. [_strip_emoji] removes class characters and whitespace only:
    every other character of the text is kept, in order. *)
Theorem strip_emoji_keeps_solid :
  forall text : list Z,
    filter solid (_strip_emoji text) = filter solid text.
Proof.
  intros text. unfold _strip_emoji.
  destruct (strip_split (re_sub_class is_emoji text)) as
      [pre [post [Hs [Hpre Hpost]]]].
  rewrite <- (filter_solid_re_sub text).
  rewrite Hs at 2. rewrite !filter_app.
  rewrite (filter_solid_space pre Hpre), (filter_solid_space post Hpost).
  rewrite app_nil_r. reflexivity.
Qed.

(** ** The texts of a cell *)

Lemma inked_or_blank (s : list Z) :
  inked s \/ Forall (fun c => isspace c = true) s.
Proof.
  induction s as [| c s [[x [Hx Hsp]] | Hall]].
  - right. constructor.
  - left. exists x. split; [right; exact Hx | exact Hsp].
  - destruct (isspace c) eqn:Hc.
    + right. constructor; assumption.
    + left. exists c. split; [left; reflexivity | exact Hc].
Qed.

Lemma lstrip_app_blank (a b : list Z) :
  Forall (fun c => isspace c = true) a -> lstrip (a ++ b) = lstrip b.
Proof.
  induction 1 as [| c a Hc _ IH]; [reflexivity |].
  cbn [app lstrip]. rewrite Hc. exact IH.
Qed.

Lemma lstrip_app_inked (a b : list Z) :
  inked a -> lstrip (a ++ b) = lstrip a ++ b.
Proof.
  intros [x [Hx Hsp]]. induction a as [| c a IH]; [contradiction |].
  cbn [app lstrip]. destruct (isspace c) eqn:Hc; [| reflexivity].
  apply IH. destruct Hx as [-> | Hx]; [congruence | exact Hx].
Qed.

Lemma inked_rev (s : list Z) : inked s -> inked (rev s).
Proof.
  intros [x [Hx Hsp]]. exists x. split; [| exact Hsp].
  apply in_rev. rewrite rev_involutive. exact Hx.
Qed.

Lemma rstrip_app_blank (a b : list Z) :
  Forall (fun c => isspace c = true) b -> rstrip (a ++ b) = rstrip a.
Proof.
  intros Hb. unfold rstrip. rewrite rev_app_distr, lstrip_app_blank;
    [reflexivity | apply Forall_rev, Hb].
Qed.

Lemma rstrip_app_inked (a b : list Z) :
  inked b -> rstrip (a ++ b) = a ++ rstrip b.
Proof.
  intros Hb. unfold rstrip.
  rewrite rev_app_distr, (lstrip_app_inked _ _ (inked_rev b Hb)).
  rewrite rev_app_distr, rev_involutive. reflexivity.
Qed.

(** Whitespace around a string does not change what [strip] returns. *)
Lemma strip_pad (pre m post : list Z) :
  Forall (fun c => isspace c = true) pre ->
  Forall (fun c => isspace c = true) post ->
  strip (pre ++ m ++ post) = strip m.
Proof.
  intros Hpre Hpost. unfold strip. rewrite (lstrip_app_blank pre _ Hpre).
  destruct (inked_or_blank m) as [Hm | Hm].
  - rewrite (lstrip_app_inked m post Hm). apply rstrip_app_blank, Hpost.
  - rewrite (lstrip_app_blank m post Hm), (lstrip_all_space post Hpost).
    rewrite (lstrip_all_space m Hm). reflexivity.
Qed.

Lemma strip_lstrip (s : list Z) : strip (lstrip s) = strip s.
Proof.
  destruct (lstrip_split s) as [pre [Hs Hpre]].
  rewrite Hs at 2.
  rewrite <- (app_nil_r (lstrip s)) at 2.
  symmetry. apply strip_pad; [exact Hpre | constructor].
Qed.

Lemma strip_rstrip (s : list Z) : strip (rstrip s) = strip s.
Proof.
  destruct (lstrip_split (rev s)) as [tail [Hs Htail]].
  apply (f_equal (@rev Z)) in Hs.
  rewrite rev_involutive, rev_app_distr in Hs.
  change (rev (lstrip (rev s))) with (rstrip s) in Hs.
  rewrite Hs at 2.
  symmetry. apply (strip_pad [] (rstrip s) (rev tail));
    [constructor | apply Forall_rev, Htail].
Qed.

Lemma re_sub_class_app (cls : Z -> bool) (a b : list Z) :
  re_sub_class cls (a ++ b) = re_sub_class cls a ++ re_sub_class cls b.
Proof.
  rewrite !re_sub_class_filter. apply filter_app.
Qed.

Lemma re_sub_class_incl (cls : Z -> bool) (s : list Z) (c : Z) :
  In c (re_sub_class cls s) -> In c s.
Proof.
  rewrite re_sub_class_filter. intros H. apply filter_In in H. apply H.
Qed.

Lemma label_texts_one (label p : list Z) :
  split_nl (_strip_emoji label) = [p] ->
  label_texts label = Ok (strip p, []).
Proof. intros H. unfold label_texts. rewrite H. reflexivity. Qed.

Lemma label_texts_two (label p0 p1 : list Z) (rest : list (list Z)) :
  split_nl (_strip_emoji label) = p0 :: p1 :: rest ->
  label_texts label = Ok (strip p0, strip p1).
Proof.
  intros H. unfold label_texts. rewrite H.
  change (getitem (p0 :: p1 :: rest) 0) with (Ok p0).
  change (getitem (p0 :: p1 :: rest) 1) with (Ok p1).
  cbn [bind].
  destruct (Z.ltb_spec 1 (len (p0 :: p1 :: rest))) as [_ | Hle];
    [reflexivity |].
  unfold len in Hle. cbn [length] in Hle. lia.
Qed.

(** X19. [label_texts] never raises; the two texts it returns hold no
    character of the emoji class and no line feed, and [strip] leaves them
    unchanged. *)
Theorem label_texts_total :
  forall label : list Z,
    exists en ar_txt,
      label_texts label = Ok (en, ar_txt) /\
      strip en = en /\ strip ar_txt = ar_txt /\
      Forall (fun c => is_emoji c = false /\ c <> NL) (en ++ ar_txt).
Proof.
  intros label.
  pose proof (split_nl_not_nil (_strip_emoji label)) as Hne.
  pose proof (split_nl_no_nl (_strip_emoji label)) as Hnl.
  pose proof (split_nl_Forall _ _ (strip_emoji_clean label)) as Hcl.
  assert (Hpiece : forall p,
             Forall (fun c => c <> NL) p ->
             Forall (fun c => is_emoji c = false) p ->
             Forall (fun c => is_emoji c = false /\ c <> NL) (strip p)).
  { intros p H1 H2. apply strip_Forall.
    rewrite Forall_forall in *. intros c Hc. split; auto. }
  destruct (split_nl (_strip_emoji label)) as [| p0 [| p1 rest]] eqn:Hsplit;
    [contradiction | |].
  - exists (strip p0), []. rewrite (label_texts_one _ _ Hsplit).
    inversion Hnl; inversion Hcl; subst.
    rewrite app_nil_r. repeat split; auto using strip_strip.
  - exists (strip p0), (strip p1). rewrite (label_texts_two _ _ _ _ Hsplit).
    inversion Hnl as [| ? ? Hn0 Hnl']; inversion Hcl as [| ? ? Hc0 Hcl']; subst.
    inversion Hnl'; inversion Hcl'; subst.
    repeat split; auto using strip_strip.
    apply Forall_app. split; auto.
Qed.

Lemma solid_inked (l : list Z) :
  (exists c, In c l /\ solid c = true) -> inked (re_sub_class is_emoji l).
Proof.
  intros [c [Hc Hs]]. unfold solid in Hs.
  apply andb_true_iff in Hs. destruct Hs as [He Hsp].
  apply negb_true_iff in He. apply negb_true_iff in Hsp.
  exists c. split; [| exact Hsp].
  rewrite re_sub_class_filter. apply filter_In. split; [exact Hc |].
  rewrite He. reflexivity.
Qed.

Lemma not_solid_blank (l : list Z) :
  Forall (fun c => solid c = false) l ->
  Forall (fun c => isspace c = true) (re_sub_class is_emoji l).
Proof.
  induction 1 as [| c l Hc _ IH]; [constructor |].
  cbn [re_sub_class]. destruct (is_emoji c) eqn:He; [exact IH |].
  constructor; [| exact IH].
  unfold solid in Hc. rewrite He in Hc. cbn [negb andb] in Hc.
  apply negb_false_iff. exact Hc.
Qed.

Lemma NL_facts : is_emoji NL = false /\ isspace NL = true.
Proof. split; reflexivity. Qed.

Lemma re_sub_no_nl (l : list Z) :
  Forall (fun c => c <> NL) l ->
  Forall (fun c => c <> NL) (re_sub_class is_emoji l).
Proof.
  intros H. rewrite Forall_forall in *. intros c Hc.
  apply H, (re_sub_class_incl is_emoji), Hc.
Qed.

(** The cleaned two-line label when the first line keeps a character. *)
Lemma strip_emoji_two_lines (l1 l2 : list Z) :
  (exists c, In c l1 /\ solid c = true) ->
  Forall (fun c => c <> NL) l1 ->
  Forall (fun c => c <> NL) l2 ->
  split_nl (_strip_emoji (l1 ++ NL :: l2)) = [_strip_emoji l1] /\
  _strip_emoji l2 = []
  \/
  exists p0 p1,
    split_nl (_strip_emoji (l1 ++ NL :: l2)) = [p0; p1] /\
    strip p0 = _strip_emoji l1 /\ strip p1 = _strip_emoji l2.
Proof.
  intros Hsolid Hn1 Hn2.
  pose proof (solid_inked l1 Hsolid) as Hk1.
  pose proof (re_sub_no_nl l1 Hn1) as HnL1.
  pose proof (re_sub_no_nl l2 Hn2) as HnL2.
  unfold _strip_emoji.
  rewrite re_sub_class_app. cbn [re_sub_class].
  rewrite (proj1 NL_facts).
  set (L1 := re_sub_class is_emoji l1) in *.
  set (L2 := re_sub_class is_emoji l2) in *.
  assert (Hstrip : strip (L1 ++ NL :: L2) = rstrip (lstrip L1 ++ NL :: L2)).
  { unfold strip. rewrite (lstrip_app_inked L1 _ Hk1). reflexivity. }
  rewrite !Hstrip.
  destruct (inked_or_blank L2) as [Hk2 | Hb2].
  - right. exists (lstrip L1), (rstrip L2).
    assert (Hr : rstrip (lstrip L1 ++ NL :: L2) = lstrip L1 ++ NL :: rstrip L2).
    { rewrite (rstrip_app_inked (lstrip L1) (NL :: L2)).
      - f_equal. apply (rstrip_app_inked [NL] L2 Hk2).
      - destruct Hk2 as [x [Hx Hsp]]. exists x. split; [right |]; assumption. }
    rewrite Hr, split_nl_app. split; [| split].
    + rewrite !split_nl_line; [reflexivity | |].
      * rewrite Forall_forall in *. intros c Hc. apply HnL2.
        unfold rstrip in Hc. apply in_rev, lstrip_incl in Hc.
        apply in_rev. exact Hc.
      * rewrite Forall_forall in *. intros c Hc. apply HnL1, lstrip_incl, Hc.
    + apply strip_lstrip.
    + apply strip_rstrip.
  - left.
    assert (Hr : rstrip (lstrip L1 ++ NL :: L2) = rstrip (lstrip L1)).
    { apply rstrip_app_blank. constructor; [exact (proj2 NL_facts) | exact Hb2]. }
    rewrite Hr. split.
    + apply split_nl_line. apply strip_Forall. exact HnL1.
    + apply strip_all_space. exact Hb2.
Qed.

(** X20. For a label of two lines whose first line keeps a character that
    is neither of the emoji class nor whitespace, [label_texts] returns the
    two lines, each cleaned by [_strip_emoji]; for a label of one line it
    returns the cleaned line and the empty string. *)
Theorem label_texts_lines :
  (forall l1 l2 : list Z,
      (exists c, In c l1 /\ solid c = true) ->
      Forall (fun c => c <> NL) l1 ->
      Forall (fun c => c <> NL) l2 ->
      label_texts (l1 ++ NL :: l2) = Ok (_strip_emoji l1, _strip_emoji l2)) /\
  (forall l : list Z,
      Forall (fun c => c <> NL) l ->
      label_texts l = Ok (_strip_emoji l, [])).
Proof.
  split.
  - intros l1 l2 Hsolid Hn1 Hn2.
    destruct (strip_emoji_two_lines l1 l2 Hsolid Hn1 Hn2) as
        [[Hsplit He] | [p0 [p1 [Hsplit [H0 H1]]]]].
    + rewrite (label_texts_one _ _ Hsplit), He.
      unfold _strip_emoji. rewrite strip_strip. reflexivity.
    + rewrite (label_texts_two _ _ _ _ Hsplit), H0, H1. reflexivity.
  - intros l Hn.
    rewrite (label_texts_one l (_strip_emoji l)).
    + unfold _strip_emoji. rewrite strip_strip. reflexivity.
    + apply split_nl_line. unfold _strip_emoji.
      apply strip_Forall, re_sub_no_nl, Hn.
Qed.

(** The label of the first cell of the first canvas. *)
Lemma label_texts_lines_witness :
  label_texts ((0x1F91D :: 0x20 :: KEY_PARTNERS_EN) ++ NL :: KEY_PARTNERS_AR) =
    Ok (_strip_emoji (0x1F91D :: 0x20 :: KEY_PARTNERS_EN),
        _strip_emoji KEY_PARTNERS_AR).
Proof.
  apply (proj1 label_texts_lines (0x1F91D :: 0x20 :: KEY_PARTNERS_EN)
           KEY_PARTNERS_AR).
  - exists 0x4B. split; [right; right; left; reflexivity | reflexivity].
  - repeat constructor; discriminate.
  - repeat constructor; discriminate.
Defined.

(** X21. When the first line of a two-line label keeps no character (it
    holds emoji and whitespace only), [label_texts] returns the cleaned
    second line as the English text and the empty string as the Arabic
    text. *)
Theorem label_texts_first_line_lost :
  forall l1 l2 : list Z,
    Forall (fun c => solid c = false) l1 ->
    Forall (fun c => c <> NL) l2 ->
    label_texts (l1 ++ NL :: l2) = Ok (_strip_emoji l2, []).
Proof.
  intros l1 l2 Hb Hn2.
  assert (Hclean : _strip_emoji (l1 ++ NL :: l2) = _strip_emoji l2).
  { unfold _strip_emoji. rewrite re_sub_class_app. cbn [re_sub_class].
    rewrite (proj1 NL_facts).
    rewrite <- (app_nil_r (re_sub_class is_emoji l2)) at 1.
    change (re_sub_class is_emoji l1 ++ NL :: re_sub_class is_emoji l2 ++ [])
      with (re_sub_class is_emoji l1 ++ [NL] ++ re_sub_class is_emoji l2 ++ []).
    rewrite app_assoc. apply strip_pad; [| constructor].
    apply Forall_app. split; [apply not_solid_blank, Hb |].
    repeat constructor. }
  rewrite (label_texts_one _ (_strip_emoji l2)).
  - unfold _strip_emoji. rewrite strip_strip. reflexivity.
  - rewrite Hclean. apply split_nl_line. unfold _strip_emoji.
    apply strip_Forall, re_sub_no_nl, Hn2.
Qed.

(** A target emoji alone on the first line, beh on the second. *)
Lemma label_texts_first_line_lost_witness :
  label_texts ([0x1F3AF] ++ NL :: [0x628]) = Ok (_strip_emoji [0x628], []).
Proof.
  apply (label_texts_first_line_lost [0x1F3AF] [0x628]).
  - repeat constructor.
  - repeat constructor; discriminate.
Defined.

Lemma ar_one_line (text : list Z) :
  Forall (fun c => c <> NL) text ->
  ar text = ar_line text.
Proof.
  intros Hn. rewrite ar_as_lines, (split_nl_line text Hn).
  cbn [result_lines]. destruct (ar_line text); reflexivity.
Qed.

Lemma bullet_text (line : list Z) :
  Forall (fun c => c <> NL) line ->
  exists t, ar (BULLET ++ line) = Ok t /\ t <> [].
Proof.
  intros Hn.
  assert (Hnb : Forall (fun c => c <> NL) (BULLET ++ line)).
  { apply Forall_app. split; [repeat constructor; discriminate | exact Hn]. }
  rewrite (ar_one_line _ Hnb).
  destruct (ar_line_total (BULLET ++ line)) as [t Ht].
  exists t. split; [exact Ht |].
  assert (Hink : inked (BULLET ++ line)).
  { exists 0x2022. split; [left; reflexivity | reflexivity]. }
  destruct (ar_line_keeps_ink _ _ Hink Ht) as [x [Hx _]].
  intros ->. contradiction.
Qed.

Lemma split_nl_holds (s : list Z) (c : Z) :
  In c s -> c <> NL -> exists l, In l (split_nl s) /\ In c l.
Proof.
  intros Hin Hc. induction s as [| x s IH]; [contradiction |].
  cbn [split_nl]. destruct (Z.eqb_spec x NL) as [-> | Hx].
  - destruct Hin as [<- | Hin]; [contradiction |].
    destruct (IH Hin) as [l [Hl Hcl]]. exists l. split; [right |]; assumption.
  - pose proof (split_nl_not_nil s) as Hne.
    destruct (split_nl s) as [| l0 ls]; [contradiction |].
    destruct Hin as [<- | Hin].
    + exists (x :: l0). split; left; reflexivity.
    + destruct (IH Hin) as [l [[<- | Hl] Hcl]].
      * exists (x :: l0). split; [left; reflexivity | right; exact Hcl].
      * exists l. split; [right |]; assumption.
Qed.

Lemma content_lines_accepted {Para Style : Type}
      (Paragraph : list Z -> Style -> option Para) (cell_con_s : Style)
      (lines : list (list Z)) :
  (forall t s, t <> [] -> Paragraph t s <> None) ->
  Forall (Forall (fun c => c <> NL)) lines ->
  exists ps,
    content_line_paragraphs Paragraph cell_con_s lines = Some ps /\
    ((exists l, In l lines /\ strip l <> []) -> ps <> []).
Proof.
  intros Hacc.
  induction 1 as [| line lines Hline _ [ps [Hps Hsome]]].
  - exists []. split; [reflexivity |]. intros [l [[] _]].
  - cbn [content_line_paragraphs].
    destruct (strip line) as [| c s] eqn:Hs; cbn [is_empty negb].
    + exists ps. split; [exact Hps |].
      intros [l [[<- | Hl] Hne]]; [congruence |].
      apply Hsome. exists l. split; assumption.
    + destruct (bullet_text (c :: s)) as [t [Ht Hne]].
      { rewrite <- Hs. apply strip_Forall. exact Hline. }
      rewrite Ht.
      destruct (Paragraph t cell_con_s) as [p |] eqn:Hp;
        [| exfalso; exact (Hacc t cell_con_s Hne Hp)].
      rewrite Hps. exists (p :: ps). split; [reflexivity | discriminate].
Qed.

Lemma content_lines_refused {Para Style : Type}
      (Paragraph : list Z -> Style -> option Para) (cell_con_s : Style)
      (lines : list (list Z)) :
  (forall t s, Paragraph t s = None) ->
  Forall (Forall (fun c => c <> NL)) lines ->
  (exists l, In l lines /\ strip l <> []) ->
  content_line_paragraphs Paragraph cell_con_s lines = None.
Proof.
  intros Href.
  induction 1 as [| line lines Hline _ IH]; intros [l [Hl Hne]];
    [contradiction |].
  cbn [content_line_paragraphs].
  destruct (strip line) as [| c s] eqn:Hs; cbn [is_empty negb].
  - apply IH. exists l. split; [| exact Hne].
    destruct Hl as [<- | Hl]; [congruence | exact Hl].
  - destruct (bullet_text (c :: s)) as [t [Ht _]].
    { rewrite <- Hs. apply strip_Forall. exact Hline. }
    rewrite Ht, Href. reflexivity.
Qed.

Lemma content_has_line (raw : list Z) (c : Z) (s : list Z) :
  strip raw = c :: s ->
  exists l, In l (split_nl (c :: s)) /\ strip l <> [].
Proof.
  intros Hs. pose proof (strip_first raw c s Hs) as Hc.
  destruct (split_nl_holds (c :: s) c) as [l [Hl Hcl]];
    [left; reflexivity | intros ->; discriminate Hc |].
  exists l. split; [exact Hl |].
  apply strip_inked. exists c. split; assumption.
Qed.

(** X22. The content processing hands [Paragraph] non-empty texts only,
    and at least one: if [Paragraph] accepts every non-empty text, the
    processing returns at least one paragraph; if [Paragraph] raises on
    every text, the processing raises. *)
Theorem content_paragraphs_texts :
  forall (Para Style : Type) (Paragraph : list Z -> Style -> option Para)
         (cell_con_s empty_s : Style) (raw : list Z),
    ((forall t s, t <> [] -> Paragraph t s <> None) ->
     exists ps,
       content_paragraphs Paragraph cell_con_s empty_s raw = Some ps /\
       ps <> []) /\
    ((forall t s, Paragraph t s = None) ->
     content_paragraphs Paragraph cell_con_s empty_s raw = None).
Proof.
  intros Para Style Paragraph cell_con_s empty_s raw.
  unfold content_paragraphs.
  destruct (strip raw) as [| c s] eqn:Hs; cbn [is_empty negb].
  - assert (Hph : exists t, ar PLACEHOLDER = Ok t /\ t <> []).
    { eexists. split; [reflexivity | discriminate]. }
    destruct Hph as [t [Ht Hne]]. rewrite Ht. split.
    + intros Hacc.
      destruct (Paragraph t empty_s) as [p |] eqn:Hp;
        [| exfalso; exact (Hacc t empty_s Hne Hp)].
      exists [p]. split; [reflexivity | discriminate].
    + intros Href. rewrite Href. reflexivity.
  - pose proof (content_has_line raw c s Hs) as Hline. split.
    + intros Hacc.
      destruct (content_lines_accepted Paragraph cell_con_s
                  (split_nl (c :: s)) Hacc (split_nl_no_nl _))
        as [ps [Hps Hsome]].
      exists ps. split; [exact Hps | apply Hsome, Hline].
    + intros Href.
      apply content_lines_refused;
        [exact Href | apply split_nl_no_nl | exact Hline].
Qed.

(** The content [a<b], with a [Paragraph] that accepts every text. *)
Lemma content_paragraphs_texts_witness :
  exists ps : list (list Z),
    content_paragraphs (fun t (_ : unit) => Some t) tt tt [0x61; 0x3C; 0x62] =
      Some ps /\
    ps <> [].
Proof.
  apply (proj1 (content_paragraphs_texts (list Z) unit
                  (fun t _ => Some t) tt tt [0x61; 0x3C; 0x62])).
  intros t s _. discriminate.
Defined.
